(** * Voting with delegation: a shallow embedding of [voting_with_delegation.py]

    The ledger of [VotingWithDelegation] is a record of finite maps, its
    methods are state-passing computations that may raise, and the two
    [while] loops that walk the delegation edges are total functions defined
    by well-founded recursion on the part of the edge map not yet in the
    loop's [seen] set.

    What the module imports from other packages is taken as a parameter
    (class [External]): address canonicalisation ([to_checksum_address] of
    eth_utils) and signer recovery ([encode_structured_data] followed by
    [Account.recover_message] of eth_account).  The clock [time.time()] is
    read once per call and is passed to the call as the argument [now].

    Python's dictionaries and sets are finite maps and sets ([gmap], [gset]),
    its integers are [Z].  The one dictionary the module iterates over is
    [voter_weight], in [get_effective_voting_power_map]; the passes of that
    loop commute ([power_step_comm]), so the map it builds does not depend on
    the order of the entries. *)

From Equations Require Import Equations.
From Equations.Prop Require Import Logic.
From stdpp Require Import gmap strings list fin_maps.

Open Scope Z_scope.

(** ** Exceptions and the two monads *)

(** [ValueError] carries the message the module passes to it.  The two
    library calls raise exceptions of their own; [KeyError] is Python's for a
    missing dictionary key. *)
Inductive exn :=
  | ValueError (msg : string)
  | KeyError (key : string)
  | AddressError
  | SignatureError.

Inductive outcome (A : Type) :=
  | Return (a : A)
  | Raise (e : exn).
Arguments Return {A} a.
Arguments Raise {A} e.

#[export] Instance outcome_ret : MRet outcome := λ A a, Return a.
#[export] Instance outcome_bind : MBind outcome := λ A B k c,
  match c with
  | Return a => k a
  | Raise e => Raise e
  end.

Definition of_option {A} (e : exn) (o : option A) : outcome A :=
  match o with
  | Some a => Return a
  | None => Raise e
  end.

(** ** Data model *)

Record DelegationMessage := {
  delegator : string;
  delegatee : string;
  nonce : Z;
  deadline : Z }.

Record EIP712DelegationVerifier := {
  chain_id : Z;
  verifying_contract : string }.

(** The dictionary of [build_typed_data]; its ["types"] and ["primaryType"]
    entries are constants and are left out. *)
Record TypedData := {
  domain_name : string;
  domain_version : string;
  domain_chainId : Z;
  domain_verifyingContract : string;
  message : DelegationMessage }.

(** One entry of [self.proposals]. *)
Record Proposal := {
  title : string;
  description : string;
  closes_at : Z;
  tallies : gmap string Z;
  voted : gset string }.

Record Ledger := {
  verifier : EIP712DelegationVerifier;
  voter_weight : gmap string Z;
  delegate_of : gmap string string;
  nonce_of : gmap string Z;
  proposals : gmap string Proposal }.

Definition set_voter_weight (w : gmap string Z) (s : Ledger) : Ledger :=
  {| verifier := verifier s; voter_weight := w; delegate_of := delegate_of s;
     nonce_of := nonce_of s; proposals := proposals s |}.

Definition set_delegate_of (d : gmap string string) (s : Ledger) : Ledger :=
  {| verifier := verifier s; voter_weight := voter_weight s; delegate_of := d;
     nonce_of := nonce_of s; proposals := proposals s |}.

Definition set_nonce_of (n : gmap string Z) (s : Ledger) : Ledger :=
  {| verifier := verifier s; voter_weight := voter_weight s;
     delegate_of := delegate_of s; nonce_of := n; proposals := proposals s |}.

Definition set_proposals (p : gmap string Proposal) (s : Ledger) : Ledger :=
  {| verifier := verifier s; voter_weight := voter_weight s;
     delegate_of := delegate_of s; nonce_of := nonce_of s; proposals := p |}.

Definition set_tallies (t : gmap string Z) (p : Proposal) : Proposal :=
  {| title := title p; description := description p; closes_at := closes_at p;
     tallies := t; voted := voted p |}.

Definition set_voted (v : gset string) (p : Proposal) : Proposal :=
  {| title := title p; description := description p; closes_at := closes_at p;
     tallies := tallies p; voted := v |}.

(** A method that may write to [self]: the ledger it leaves behind is part of
    the result also when it raises, as in Python. *)
Definition M (A : Type) : Type := Ledger → outcome A * Ledger.

#[export] Instance M_ret : MRet M := λ A a s, (Return a, s).
#[export] Instance M_bind : MBind M := λ A B k c s,
  match c s with
  | (Return a, s') => k a s'
  | (Raise e, s') => (Raise e, s')
  end.

Definition raise {A} (e : exn) : M A := λ s, (Raise e, s).
Definition modify (f : Ledger → Ledger) : M unit := λ s, (Return (), f s).
(** A method that only reads [self]. *)
Definition query {A} (q : Ledger → outcome A) : M A := λ s, (q s, s).

(** ** What the module imports *)

Class External := {
  (** [eth_utils.to_checksum_address]; [None] when it raises. *)
  to_checksum_address : string → option string;
  (** [Account.recover_message(encode_structured_data(typed), signature)];
      [None] when either raises. *)
  recover_message : TypedData → string → option string }.

(** A checksum address is a valid address and is its own checksum form. *)
Class ExternalLaws (E : External) : Prop :=
  checksum_idem : ∀ a c, to_checksum_address a = Some c →
                         to_checksum_address c = Some c.

Definition checksum {E : External} (a : string) : outcome string :=
  of_option AddressError (to_checksum_address a).

(** ** The two walks over the delegation edges *)

(** Both loops stop because every pass adds the current node, a key of the
    edge map that is not yet in [seen], to [seen]. *)

(** The loop of [_would_create_cycle], from the loop test on. *)
Equations? would_create_cycle_loop (m : gmap string string) (start_cs : string)
    (seen : gset string) (current : string) : bool
    by wf (size (dom m ∖ seen)) lt :=
  would_create_cycle_loop m start_cs seen current with inspect (m !! current) => {
    | exist _ None _ := false;
    | exist _ (Some nxt) E with decide (current ∈ seen) => {
        | left _ := true;
        | right _ with decide (nxt = start_cs) => {
            | left _ := true;
            | right _ :=
                would_create_cycle_loop m start_cs ({[current]} ∪ seen) nxt } } }.
Proof.
  apply subset_size. apply elem_of_dom_2 in E. set_solver.
Qed.

(** The loop of [_resolve_final_delegate]; it returns the locals [current]
    and [seen] as they are when the loop is left.  Every pass through the
    body adds one new node to [seen] and follows one edge. *)
Equations? resolve_loop (m : gmap string string) (seen : gset string)
    (current : string) : string * gset string
    by wf (size (dom m ∖ seen)) lt :=
  resolve_loop m seen current with inspect (m !! current) => {
    | exist _ None _ := (current, seen);
    | exist _ (Some nxt) E with decide (current ∈ seen) => {
        | left _ := (current, seen);
        | right _ := resolve_loop m ({[current]} ∪ seen) nxt } }.
Proof.
  apply subset_size. apply elem_of_dom_2 in E. set_solver.
Qed.

Section Model.
Context {E : External}.

(** ** EIP712DelegationVerifier *)

Definition new_verifier (chain : Z) (contract : string)
    : outcome EIP712DelegationVerifier :=
  c ← checksum contract;
  mret {| chain_id := chain; verifying_contract := c |}.

Definition build_typed_data (v : EIP712DelegationVerifier)
    (msg : DelegationMessage) : outcome TypedData :=
  d ← checksum (delegator msg);
  e ← checksum (delegatee msg);
  mret {| domain_name := "XterioVoting"; domain_version := "1";
          domain_chainId := chain_id v;
          domain_verifyingContract := verifying_contract v;
          message := {| delegator := d; delegatee := e;
                        nonce := nonce msg; deadline := deadline msg |} |}.

Definition recover_delegator (v : EIP712DelegationVerifier)
    (msg : DelegationMessage) (signature : string) : outcome string :=
  typed ← build_typed_data v msg;
  recovered ← of_option SignatureError (recover_message typed signature);
  checksum recovered.

(** ** VotingWithDelegation *)

Definition new_ledger (chain : Z) (contract : string) : outcome Ledger :=
  v ← new_verifier chain contract;
  mret {| verifier := v; voter_weight := ∅; delegate_of := ∅;
          nonce_of := ∅; proposals := ∅ |}.

Definition add_voter (address : string) (weight : Z) : M unit :=
  addr ← query (λ _, checksum address);
  if decide (weight < 0) then raise (ValueError "weight must be non-negative")
  else
    modify (λ s, set_voter_weight (<[addr := weight]> (voter_weight s)) s);;
    modify (λ s, if decide (addr ∈ dom (nonce_of s)) then s
                 else set_nonce_of (<[addr := 0]> (nonce_of s)) s).

Definition get_direct_weight (address : string) (s : Ledger) : outcome Z :=
  addr ← checksum address;
  mret (default 0 (voter_weight s !! addr)).

Definition get_nonce (delegator : string) (s : Ledger) : outcome Z :=
  addr ← checksum delegator;
  mret (default 0 (nonce_of s !! addr)).

Definition build_delegation_message (delegator delegatee : string)
    (deadline : Z) (s : Ledger) : outcome DelegationMessage :=
  delegator_cs ← checksum delegator;
  delegatee_cs ← checksum delegatee;
  nonce ← get_nonce delegator_cs s;
  mret {| delegator := delegator_cs; delegatee := delegatee_cs;
          nonce := nonce; deadline := deadline |}.

Definition _would_create_cycle (start next_hop : string) (s : Ledger)
    : outcome bool :=
  current ← checksum next_hop;
  start_cs ← checksum start;
  mret (would_create_cycle_loop (delegate_of s) start_cs ∅ current).

Definition _resolve_final_delegate (addr : string) (s : Ledger)
    : outcome string :=
  addr_cs ← checksum addr;
  mret (resolve_loop (delegate_of s) ∅ addr_cs).1.

Definition _set_delegate (delegator delegatee : string) : M unit :=
  delegator_cs ← query (λ _, checksum delegator);
  delegatee_cs ← query (λ _, checksum delegatee);
  if decide (delegator_cs = delegatee_cs) then
    modify (λ s, set_delegate_of (delete delegator_cs (delegate_of s)) s)
  else
    cyc ← query (_would_create_cycle delegator_cs delegatee_cs);
    if cyc : bool then raise (ValueError "delegation would create a cycle")
    else
      modify (λ s, set_delegate_of
                     (<[delegator_cs := delegatee_cs]> (delegate_of s)) s).

Definition apply_delegation_signature (now : Z) (signature : string)
    (delegator delegatee : string) (nonce deadline : Z) : M unit :=
  if decide (now > deadline) then
    raise (ValueError "delegation signature expired")
  else
    d ← query (λ _, checksum delegator);
    e ← query (λ _, checksum delegatee);
    let msg := {| delegator := d; delegatee := e;
                  nonce := nonce; deadline := deadline |} in
    expected_nonce ← query (get_nonce d);
    if decide (nonce ≠ expected_nonce) then
      raise (ValueError "invalid nonce for delegator")
    else
      recovered ← query (λ s, recover_delegator (verifier s) msg signature);
      if decide (recovered ≠ d) then
        raise (ValueError "invalid signature: signer is not delegator")
      else
        _set_delegate d e;;
        modify (λ s, set_nonce_of (<[d := expected_nonce + 1]> (nonce_of s)) s).

(** One pass of the [for] loop of [get_effective_voting_power_map], [acc]
    being the dictionary [power] built so far. *)
Definition power_step (s : Ledger) (voter : string) (weight : Z)
    (acc : outcome (gmap string Z)) : outcome (gmap string Z) :=
  power ← acc;
  if decide (weight = 0) then mret power
  else
    final_holder ← _resolve_final_delegate voter s;
    mret (<[final_holder := default 0 (power !! final_holder) + weight]> power).

Definition get_effective_voting_power_map (s : Ledger)
    : outcome (gmap string Z) :=
  map_fold (power_step s) (Return ∅) (voter_weight s).

Definition get_effective_voting_power (address : string) (s : Ledger)
    : outcome Z :=
  final_holder ← _resolve_final_delegate address s;
  power ← get_effective_voting_power_map s;
  mret (default 0 (power !! final_holder)).

Definition create_proposal (now : Z) (proposal_id title description : string)
    (closes_at : Z) : M unit :=
  s ← query Return;
  if decide (proposal_id ∈ dom (proposals s)) then
    raise (ValueError "proposal already exists")
  else if decide (closes_at ≤ now) then
    raise (ValueError "closes_at must be in the future")
  else
    modify (λ s, set_proposals
      (<[proposal_id :=
           {| title := title; description := description;
              closes_at := closes_at;
              tallies := <["yes" := 0]> (<["no" := 0]> (<["abstain" := 0]> ∅));
              voted := ∅ |}]> (proposals s)) s).

Definition choices : list string := ["yes"; "no"; "abstain"].

Definition vote (now : Z) (proposal_id voter choice : string)
    : M (Z * gmap string Z) :=
  s ← query Return;
  match proposals s !! proposal_id with
  | None => raise (ValueError "unknown proposal")
  | Some prop =>
    if decide (choice ∉ choices) then raise (ValueError "invalid choice")
    else if decide (now > closes_at prop) then
      raise (ValueError "voting closed")
    else
      voter_cs ← query (λ _, checksum voter);
      final_holder ← query (_resolve_final_delegate voter_cs);
      if decide (voter_cs ≠ final_holder) then
        raise (ValueError "delegated voters cannot cast a direct vote")
      else if decide (final_holder ∈ voted prop) then
        raise (ValueError "already voted for this proposal")
      else
        power_map ← query get_effective_voting_power_map;
        let weight := default 0 (power_map !! final_holder) in
        if decide (weight ≤ 0) then raise (ValueError "no voting power")
        else
          tally ← query (λ _, of_option (KeyError choice)
                                (tallies prop !! choice));
          let prop1 := set_tallies (<[choice := tally + weight]> (tallies prop))
                         prop in
          modify (λ s, set_proposals (<[proposal_id := prop1]> (proposals s)) s);;
          let prop2 := set_voted ({[final_holder]} ∪ voted prop1) prop1 in
          modify (λ s, set_proposals (<[proposal_id := prop2]> (proposals s)) s);;
          mret (weight, tallies prop2)
  end.

Definition get_results (proposal_id : string) (s : Ledger)
    : outcome (gmap string Z) :=
  match proposals s !! proposal_id with
  | None => Raise (ValueError "unknown proposal")
  | Some prop => mret (tallies prop)
  end.

Definition is_open (now : Z) (proposal_id : string) (s : Ledger)
    : outcome bool :=
  match proposals s !! proposal_id with
  | None => Raise (ValueError "unknown proposal")
  | Some prop => mret (bool_decide (now ≤ closes_at prop))
  end.

End Model.

(** ** The vocabulary of the properties *)

(** [follow m n a] is the address [n] edges after [a], if there are that many. *)
Fixpoint follow (m : gmap string string) (n : nat) (a : string) : option string :=
  match n with
  | O => Some a
  | S n' => m !! a ≫= follow m n'
  end.

(** No address comes back to itself along one or more edges. *)
Definition acyclic (m : gmap string string) : Prop :=
  ∀ a n, follow m (S n) a ≠ Some a.

(** Every chain of edges ends at an address without an outgoing edge. *)
Definition terminating (m : gmap string string) : Prop :=
  ∀ a, ∃ n t, follow m n a = Some t ∧ m !! t = None.

(** What makes the walk of [_would_create_cycle] from [next_hop] answer
    [True]: it comes to [start] after one or more edges, or it comes twice to
    the same address. *)
Definition walk_hits (m : gmap string string) (start next_hop : string) : Prop :=
  (∃ n, follow m (S n) next_hop = Some start) ∨
  (∃ i j x, (i < j)%nat ∧ follow m i next_hop = Some x ∧
            follow m j next_hop = Some x).

Definition sum_values (p : gmap string Z) : Z :=
  map_fold (λ _ v acc, v + acc) 0 p.

Definition positive_entries (w : gmap string Z) : gmap string Z :=
  filter (λ kv, 0 < kv.2) w.

(** The calls that write to a ledger, and the ledger a call leaves behind
    (whether it returns or raises). *)
Inductive call :=
  | AddVoter (address : string) (weight : Z)
  | ApplyDelegationSignature (now : Z) (signature delegator delegatee : string)
      (nonce deadline : Z)
  | SetDelegate (delegator delegatee : string)
  | CreateProposal (now : Z) (proposal_id title description : string)
      (closes_at : Z)
  | Vote (now : Z) (proposal_id voter choice : string).

Definition after {E : External} (c : call) (s : Ledger) : Ledger :=
  match c with
  | AddVoter a w => (add_voter a w s).2
  | ApplyDelegationSignature now sig d e n dl =>
      (apply_delegation_signature now sig d e n dl s).2
  | SetDelegate d e => (_set_delegate d e s).2
  | CreateProposal now pid t d c => (create_proposal now pid t d c s).2
  | Vote now pid v c => (vote now pid v c s).2
  end.

(** The ledgers a program can hold: a new one, and whatever a call leaves. *)
Inductive reachable {E : External} : Ledger → Prop :=
  | reachable_new chain contract s :
      new_ledger chain contract = Return s → reachable s
  | reachable_call c s :
      reachable s → reachable (after c s).

(** The ledger invariant behind the properties below. *)
Record ledger_inv {E : External} (s : Ledger) : Prop := {
  inv_voter_checksum : ∀ a w, voter_weight s !! a = Some w →
                              to_checksum_address a = Some a;
  inv_weight_nonneg : ∀ a w, voter_weight s !! a = Some w → 0 ≤ w;
  inv_terminating : terminating (delegate_of s);
  inv_tallies : ∀ pid p c, proposals s !! pid = Some p → c ∈ choices →
                           is_Some (tallies p !! c) }.

Definition after_all {E : External} (cs : list call) (s : Ledger) : Ledger :=
  foldl (λ s c, after c s) s cs.

(** The proposal [create_proposal] stores. *)
Definition new_proposal (title description : string) (closes_at : Z) : Proposal :=
  {| title := title; description := description; closes_at := closes_at;
     tallies := <["yes" := 0]> (<["no" := 0]> (<["abstain" := 0]> ∅));
     voted := ∅ |}.

(** The proposal as [vote] leaves it. *)
Definition cast (choice : string) (tally weight : Z) (holder : string)
    (prop : Proposal) : Proposal :=
  {| title := title prop; description := description prop;
     closes_at := closes_at prop;
     tallies := <[choice := tally + weight]> (tallies prop);
     voted := {[holder]} ∪ voted prop |}.

(** The invariant of the loop of [_resolve_final_delegate]: [seen] holds the
    first [k] addresses of the chain from [a], which are distinct keys of the
    edge map. *)
Record walked (m : gmap string string) (a : string) (seen : gset string)
    (k : nat) : Prop := {
  walked_size : size seen = k;
  walked_dom : seen ⊆ dom m;
  walked_elem : ∀ x, x ∈ seen ↔ ∃ i, (i < k)%nat ∧ follow m i a = Some x }.

(** What a call of [_set_delegate] can do to a ledger. *)
Inductive set_delegate_effect (s : Ledger) : outcome () → Ledger → Prop :=
  | sde_raise (x : exn) : set_delegate_effect s (Raise x) s
  | sde_clear (dc : string) :
      set_delegate_effect s (Return ())
        (set_delegate_of (delete dc (delegate_of s)) s)
  | sde_commit (dc ec : string) :
      dc ≠ ec → would_create_cycle_loop (delegate_of s) dc ∅ ec = false →
      set_delegate_effect s (Return ())
        (set_delegate_of (<[dc := ec]> (delegate_of s)) s).

(** The final delegate of a checksum address [a] under the edges [m]. *)
Definition final_delegate (m : gmap string string) (a : string) : string :=
  (resolve_loop m ∅ a).1.

(** The registered voters whose final delegate is [f], with their weights. *)
Definition delegators_of (s : Ledger) (f : string) : gmap string Z :=
  filter (λ kv, final_delegate (delegate_of s) kv.1 = f) (voter_weight s).

(** What holds of every stored proposal: the tallies are those of the three
    choices and are not negative, nothing is tallied before someone has
    voted, and the voted-set holds checksum addresses. *)
Record proposal_wf {E : External} (p : Proposal) : Prop := {
  wf_tallies_dom : dom (tallies p) = list_to_set choices;
  wf_tallies_nonneg : ∀ c t, tallies p !! c = Some t → 0 ≤ t;
  wf_voted_empty : voted p = ∅ ↔ sum_values (tallies p) = 0;
  wf_voted_checksum : ∀ v, v ∈ voted p → to_checksum_address v = Some v }.

(** A second ledger invariant, on the keys and the nonces. *)
Record ledger_wf {E : External} (s : Ledger) : Prop := {
  wf_registered : ∀ a w, voter_weight s !! a = Some w →
                         is_Some (nonce_of s !! a);
  wf_nonce : ∀ a n, nonce_of s !! a = Some n →
                    to_checksum_address a = Some a ∧ 0 ≤ n;
  wf_edges : ∀ a b, delegate_of s !! a = Some b →
                    to_checksum_address a = Some a ∧
                    to_checksum_address b = Some b;
  wf_proposals : ∀ pid p, proposals s !! pid = Some p → proposal_wf p }.

(** ** A small instance to run the model on

    Addresses are the strings that start with [0x], each its own checksum
    form, and a signature is the address of its signer. *)
Definition example_external : External := {|
  to_checksum_address a := if String.prefix "0x" a then Some a else None;
  recover_message _ signature := Some signature |}.

Definition alice : string := "0xA11ce".
Definition bob : string := "0xB0b".

Definition example_new : Ledger :=
  {| verifier := {| chain_id := 1; verifying_contract := "0xC0ffee" |};
     voter_weight := ∅; delegate_of := ∅; nonce_of := ∅; proposals := ∅ |}.

(** Alice (weight 100) and Bob (weight 50) are registered. *)
Definition example_registered : Ledger :=
  @after_all example_external [AddVoter alice 100; AddVoter bob 50] example_new.

(** Alice then delegates to Bob: nonce 0, signed by Alice, at time 10 with
    deadline 20. *)
Definition example_delegated : Ledger :=
  @after example_external
    (ApplyDelegationSignature 10 alice alice bob 0 20) example_registered.

(** A proposal is then opened at time 11, to close at time 30. *)
Definition example_proposed : Ledger :=
  @after example_external
    (CreateProposal 11 "P" "title" "description" 30) example_delegated.

(** Bob then votes yes at time 12. *)
Definition example_voted : Ledger :=
  @after example_external (Vote 12 "P" bob "yes") example_proposed.

Definition carol : string := "0xCa401".

(** After Bob's vote Alice takes her delegation back (nonce 1, signed by
    Alice, at time 12 with deadline 20). *)
Definition example_undelegated : Ledger :=
  @after example_external
    (ApplyDelegationSignature 12 alice alice alice 1 20) example_voted.

(** Bob's own weight is then set to 0. *)
Definition example_zeroed : Ledger :=
  @after example_external (AddVoter bob 0) example_undelegated.

(** * Proofs *)

(** ** Chains of edges *)

Section Chains.
Implicit Types (m : gmap string string) (a b c d e t x : string).
Implicit Types (seen : gset string) (i j k n p q : nat).

Lemma seen_measure m seen c :
  is_Some (m !! c) → c ∉ seen →
  (size (dom m ∖ ({[c]} ∪ seen)) < size (dom m ∖ seen))%nat.
Proof.
  intros Hc Hs. apply elem_of_dom in Hc.
  apply subset_size. set_solver.
Qed.

Lemma would_create_cycle_loop_eq m d seen c :
  would_create_cycle_loop m d seen c =
  match m !! c with
  | None => false
  | Some nxt =>
      if decide (c ∈ seen) then true
      else if decide (nxt = d) then true
      else would_create_cycle_loop m d ({[c]} ∪ seen) nxt
  end.
Proof.
  funelim (would_create_cycle_loop m d seen c);
    repeat match goal with
    | E : ?l !! ?i = _ |- context [?l !! ?i] => rewrite E
    | E : decide ?P = _ |- context [decide ?P] => rewrite E
    end; done.
Qed.

Lemma resolve_loop_eq m seen c :
  resolve_loop m seen c =
  match m !! c with
  | None => (c, seen)
  | Some nxt =>
      if decide (c ∈ seen) then (c, seen)
      else resolve_loop m ({[c]} ∪ seen) nxt
  end.
Proof.
  funelim (resolve_loop m seen c);
    repeat match goal with
    | E : ?l !! ?i = _ |- context [?l !! ?i] => rewrite E
    | E : decide ?P = _ |- context [decide ?P] => rewrite E
    end; done.
Qed.

Lemma follow_add m i j a :
  follow m (i + j) a = follow m i a ≫= follow m j.
Proof.
  revert a. induction i as [|i IH]; intros a; simpl; [done|].
  destruct (m !! a) as [b|]; simpl; [apply IH | done].
Qed.

Lemma follow_S_r m n a :
  follow m (S n) a = follow m n a ≫= (m !!.).
Proof.
  replace (S n) with (n + 1)%nat by lia. rewrite follow_add.
  destruct (follow m n a) as [b|]; simpl; [|done].
  by destruct (m !! b).
Qed.

(** An address met before the end of a chain has an outgoing edge. *)
Lemma follow_before m n i a t x :
  follow m n a = Some t → (i < n)%nat → follow m i a = Some x →
  is_Some (m !! x).
Proof.
  intros Hn Hi Hx. replace n with (i + S (n - S i))%nat in Hn by lia.
  rewrite follow_add, Hx in Hn. simpl in Hn.
  destruct (m !! x); [eauto | discriminate].
Qed.

Lemma follow_prefix m n i a t :
  follow m n a = Some t → (i ≤ n)%nat → is_Some (follow m i a).
Proof.
  intros Hn Hi. replace n with (i + (n - i))%nat in Hn by lia.
  rewrite follow_add in Hn. destruct (follow m i a); [eauto | discriminate].
Qed.

(** Past an address without an outgoing edge there is nothing to follow. *)
Lemma follow_past_end m n p a t :
  follow m n a = Some t → m !! t = None → (n < p)%nat → follow m p a = None.
Proof.
  intros Hn Ht Hp. replace p with (n + S (p - S n))%nat by lia.
  rewrite follow_add, Hn. simpl. by rewrite Ht.
Qed.

Lemma follow_cycle_iter m n a q :
  follow m (S n) a = Some a → follow m (q * S n) a = Some a.
Proof.
  intros Hc. induction q as [|q IH]; [done|].
  replace (S q * S n)%nat with (S n + q * S n)%nat by lia.
  by rewrite follow_add, Hc.
Qed.

Lemma follow_revisit_iter m i j a x q :
  (i < j)%nat → follow m i a = Some x → follow m j a = Some x →
  follow m (i + q * (j - i)) a = Some x.
Proof.
  intros Hij Hi Hj.
  assert (follow m (j - i) x = Some x) as Hc.
  { replace j with (i + (j - i))%nat in Hj by lia.
    by rewrite follow_add, Hi in Hj. }
  rewrite follow_add, Hi. simpl.
  destruct (j - i)%nat as [|p] eqn:Hp; [lia|].
  by apply follow_cycle_iter.
Qed.

(** A chain that ends does not come twice to the same address. *)
Lemma follow_end_no_revisit m n a t i j x :
  follow m n a = Some t → m !! t = None →
  (i < j)%nat → follow m i a = Some x → follow m j a = Some x → False.
Proof.
  intros Hn Ht Hij Hi Hj.
  pose proof (follow_revisit_iter m i j a x (S n) Hij Hi Hj) as Hq.
  rewrite (follow_past_end m n _ a t) in Hq; [done..|nia].
Qed.

Lemma terminating_acyclic m : terminating m → acyclic m.
Proof.
  intros Hterm a n Hcyc. destruct (Hterm a) as (k & t & Hk & Ht).
  apply (follow_end_no_revisit m k a t 0 (S n) a Hk Ht); [lia|done..].
Qed.

(** *** The loop of [_resolve_final_delegate] *)

Lemma walked_empty m a : walked m a ∅ 0.
Proof.
  split; [done | set_solver |].
  intros x. split; [set_solver | intros (i & ? & _); lia].
Qed.

Lemma walked_step m a seen k c nxt :
  walked m a seen k → follow m k a = Some c → m !! c = Some nxt → c ∉ seen →
  walked m a ({[c]} ∪ seen) (S k) ∧ follow m (S k) a = Some nxt.
Proof.
  intros [Hsz Hdom Hel] Hk Hc Hnotin. split; [split|].
  - rewrite size_union, size_singleton by set_solver. lia.
  - apply elem_of_dom_2 in Hc. set_solver.
  - intros x. rewrite elem_of_union, elem_of_singleton, Hel. split.
    + intros [->|(i & ? & ?)]; [exists k | exists i]; split; (lia || done).
    + intros (i & Hi & Hx). destruct (decide (i = k)) as [->|].
      * left. congruence.
      * right. exists i. split; [lia | done].
  - rewrite follow_S_r, Hk. done.
Qed.

Lemma resolve_loop_walked m a seen c k :
  walked m a seen k → follow m k a = Some c →
  ∃ n, (k ≤ n)%nat ∧
       walked m a (resolve_loop m seen c).2 n ∧
       follow m n a = Some (resolve_loop m seen c).1 ∧
       (m !! (resolve_loop m seen c).1 = None ∨
        (resolve_loop m seen c).1 ∈ (resolve_loop m seen c).2).
Proof.
  remember (size (dom m ∖ seen)) as μ eqn:Hμ.
  revert seen c k Hμ. induction (lt_wf μ) as [μ _ IH].
  intros seen c k -> Hw Hk. rewrite resolve_loop_eq.
  destruct (m !! c) as [nxt|] eqn:Hc.
  - destruct (decide (c ∈ seen)) as [Hin|Hnotin]; simpl.
    + exists k. eauto.
    + destruct (walked_step m a seen k c nxt Hw Hk Hc Hnotin) as [Hw' Hk'].
      edestruct (IH _ (seen_measure m seen c (mk_is_Some _ _ Hc) Hnotin)
                   ({[c]} ∪ seen) nxt (S k) eq_refl Hw' Hk')
        as (n & Hn & ?).
      exists n. split; [lia | done].
  - exists k. simpl. eauto.
Qed.

(** In a graph without cycles the loop is never left through [break]. *)
Lemma resolve_loop_end m a :
  acyclic m → m !! (resolve_loop m ∅ a).1 = None.
Proof.
  intros Hacyc.
  destruct (resolve_loop_walked m a ∅ a 0 (walked_empty m a) eq_refl)
    as (n & _ & Hw & Hn & [Hend|Hseen]); [done|].
  exfalso. apply (walked_elem _ _ _ _ Hw) in Hseen as (i & Hi & Hx).
  set (r := (resolve_loop m ∅ a).1) in *.
  pose proof (follow_revisit_iter m i n a r 1 Hi Hx Hn) as Hq.
  replace (i + 1 * (n - i))%nat with (i + (n - i))%nat in Hq by lia.
  rewrite follow_add, Hx in Hq. simpl in Hq.
  destruct (n - i)%nat as [|p] eqn:Hp; [lia|]. by apply (Hacyc r p).
Qed.

Lemma acyclic_terminating m : acyclic m → terminating m.
Proof.
  intros Hacyc a.
  destruct (resolve_loop_walked m a ∅ a 0 (walked_empty m a) eq_refl)
    as (n & _ & _ & Hn & _).
  exists n, (resolve_loop m ∅ a).1. split; [done|].
  by apply resolve_loop_end.
Qed.

(** *** The loop of [_would_create_cycle] *)

(** When the loop answers [False], the chain from the current address ends
    and none of its later addresses is [d]. *)
Lemma would_create_cycle_loop_false m d e seen c k :
  follow m k e = Some c → would_create_cycle_loop m d seen c = false →
  ∃ n t, (k ≤ n)%nat ∧ follow m n e = Some t ∧ m !! t = None ∧
         ∀ i, (k < i ≤ n)%nat → follow m i e ≠ Some d.
Proof.
  remember (size (dom m ∖ seen)) as μ eqn:Hμ.
  revert seen c k Hμ. induction (lt_wf μ) as [μ _ IH].
  intros seen c k -> Hk. rewrite would_create_cycle_loop_eq.
  destruct (m !! c) as [nxt|] eqn:Hc.
  - destruct (decide (c ∈ seen)) as [|Hnotin]; [done|].
    destruct (decide (nxt = d)) as [|Hnxt]; [done|]. intros Hrec.
    assert (follow m (S k) e = Some nxt) as Hk' by (by rewrite follow_S_r, Hk).
    edestruct (IH _ (seen_measure m seen c (mk_is_Some _ _ Hc) Hnotin)
                 ({[c]} ∪ seen) nxt (S k) eq_refl Hk' Hrec)
      as (n & t & Hn & Hfn & Ht & Havoid).
    exists n, t. split_and!; [lia|done..|].
    intros i Hi. destruct (decide (i = S k)) as [->|]; [congruence|].
    apply Havoid. lia.
  - intros _. exists k, c. split_and!; [lia|done..|]. intros i Hi. lia.
Qed.

(** When it answers [True], the walk came to [d] or came back to an address
    it had seen. *)
Lemma would_create_cycle_loop_true m d e seen c k :
  (∀ x, x ∈ seen → ∃ i, (i < k)%nat ∧ follow m i e = Some x) →
  follow m k e = Some c → would_create_cycle_loop m d seen c = true →
  walk_hits m d e.
Proof.
  remember (size (dom m ∖ seen)) as μ eqn:Hμ.
  revert seen c k Hμ. induction (lt_wf μ) as [μ _ IH].
  intros seen c k -> Hseen Hk. rewrite would_create_cycle_loop_eq.
  destruct (m !! c) as [nxt|] eqn:Hc; [|done].
  assert (follow m (S k) e = Some nxt) as Hk' by (by rewrite follow_S_r, Hk).
  destruct (decide (c ∈ seen)) as [Hin|Hnotin].
  { intros _. right. destruct (Hseen c Hin) as (i & Hi & Hx). by exists i, k, c. }
  destruct (decide (nxt = d)) as [->|Hnxt].
  { intros _. left. by exists k. }
  apply (IH _ (seen_measure m seen c (mk_is_Some _ _ Hc) Hnotin)
           ({[c]} ∪ seen) nxt (S k) eq_refl); [|done].
  intros x [->%elem_of_singleton|Hx]%elem_of_union.
  - exists k. split; [lia | done].
  - destruct (Hseen x Hx) as (i & Hi & ?). exists i. split; [lia | done].
Qed.

Lemma would_create_cycle_loop_hits m d e :
  would_create_cycle_loop m d ∅ e = true ↔ walk_hits m d e.
Proof.
  split.
  - apply (would_create_cycle_loop_true m d e ∅ e 0); [set_solver | done].
  - intros Hhits.
    destruct (would_create_cycle_loop m d ∅ e) eqn:Hloop; [done|exfalso].
    destruct (would_create_cycle_loop_false m d e ∅ e 0 eq_refl Hloop)
      as (n & t & _ & Hn & Ht & Havoid).
    destruct Hhits as [[j Hj]|(i & j & x & Hij & Hi & Hj)].
    + destruct (decide (S j ≤ n)%nat) as [Hle|Hgt].
      * apply (Havoid (S j)); [lia | done].
      * rewrite (follow_past_end m n (S j) e t) in Hj; [done..|lia].
    + by apply (follow_end_no_revisit m n e t i j x).
Qed.

(** *** Writing to the edge map keeps every chain finite *)

Lemma terminating_delete m d : terminating m → terminating (delete d m).
Proof.
  intros Hterm a. destruct (Hterm a) as (n & t & Hn & Ht). clear Hterm.
  revert a Hn. induction n as [|n IH]; intros a Hn.
  - injection Hn as ->. exists 0%nat, t. split; [done|].
    rewrite lookup_delete_None. by right.
  - destruct (delete d m !! a) as [b|] eqn:Ha.
    + pose proof Ha as [_ Ha']%lookup_delete_Some. simpl in Hn.
      rewrite Ha' in Hn. simpl in Hn.
      destruct (IH b Hn) as (n' & t' & Hn' & Ht').
      exists (S n'), t'. split; [|done]. simpl. by rewrite Ha.
    + exists 0%nat, a. done.
Qed.

Lemma terminating_insert m d e :
  terminating m → d ≠ e → would_create_cycle_loop m d ∅ e = false →
  terminating (<[d := e]> m).
Proof.
  intros Hterm Hde Hloop.
  destruct (would_create_cycle_loop_false m d e ∅ e 0 eq_refl Hloop)
    as (n & t & _ & Hn & Ht & Havoid).
  (* the chain from [e] never uses the edge of [d], old or new *)
  assert (∀ k c, (k ≤ n)%nat → follow m (n - k) e = Some c →
                 follow (<[d := e]> m) k c = Some t ∧ c ≠ d) as Htail.
  { induction k as [|k IH]; intros c Hk Hc.
    - replace (n - 0)%nat with n in Hc by lia. split; [simpl; congruence|].
      intros ->. destruct n as [|n']; [simplify_eq/=; done|].
      apply (Havoid (S n')); [lia | done].
    - assert (c ≠ d) as Hcd.
      { intros ->. destruct (n - S k)%nat as [|p] eqn:Hp; [simplify_eq/=; done|].
        apply (Havoid (S p)); [lia | done]. }
      split; [|done]. simpl. rewrite lookup_insert_ne by done.
      assert (follow m (S (n - S k)) e = follow m (n - k) e) as Hstep
        by (f_equal; lia).
      rewrite follow_S_r, Hc in Hstep. simpl in Hstep.
      destruct (follow_prefix m n (n - k) e t Hn) as [b Hb]; [lia|].
      rewrite Hb in Hstep. rewrite Hstep. simpl. apply IH; [lia | done]. }
  destruct (Htail n e) as [He _]; [lia | by rewrite Nat.sub_diag |].
  assert (<[d := e]> m !! t = None) as Ht'.
  { destruct (Htail 0%nat t) as [_ Htd]; [lia | by rewrite Nat.sub_0_r |].
    by rewrite lookup_insert_ne. }
  assert (follow (<[d := e]> m) (S n) d = Some t) as Hd
    by (simpl; by rewrite lookup_insert_eq).
  intros a. destruct (Hterm a) as (na & ta & Hna & Hta). clear Hterm.
  revert a Hna. induction na as [|na IH]; intros a Hna.
  - destruct (decide (a = d)) as [->|Had]; [by exists (S n), t|].
    injection Hna as ->. exists 0%nat, ta. split; [done|].
    by rewrite lookup_insert_ne.
  - destruct (decide (a = d)) as [->|Had]; [by exists (S n), t|].
    simpl in Hna. destruct (m !! a) as [b|] eqn:Ha; [|done]. simpl in Hna.
    destruct (IH b Hna) as (n' & t' & Hn' & Ht'').
    exists (S n'), t'. split; [|done].
    simpl. by rewrite lookup_insert_ne, Ha.
Qed.

End Chains.

(** ** The methods *)

(** Unfolds the monads down to the ledgers and outcomes. *)
Ltac run :=
  repeat (unfold mbind, M_bind, mret, M_ret, outcome_bind, outcome_ret,
            query, modify, raise; cbn).

Section Methods.
Context {E : External} {EL : ExternalLaws E}.
Implicit Types (s : Ledger) (a c d e : string) (m : gmap string string).

Lemma checksum_Return a c :
  to_checksum_address a = Some c → checksum a = Return c.
Proof. unfold checksum. by intros ->. Qed.

Lemma checksum_fixed a c :
  to_checksum_address a = Some c → checksum c = Return c.
Proof. intros Ha. apply checksum_Return. by apply (checksum_idem a). Qed.

Lemma checksum_Raise a :
  to_checksum_address a = None → checksum a = Raise AddressError.
Proof. unfold checksum. by intros ->. Qed.

Lemma checksum_inv a c : checksum a = Return c → to_checksum_address a = Some c.
Proof. unfold checksum. destruct (to_checksum_address a); naive_solver. Qed.

(** *** [add_voter] *)

Lemma add_voter_run a c w s :
  to_checksum_address a = Some c →
  add_voter a w s =
    if decide (w < 0) then (Raise (ValueError "weight must be non-negative"), s)
    else (Return (),
          let s1 := set_voter_weight (<[c := w]> (voter_weight s)) s in
          if decide (c ∈ dom (nonce_of s1)) then s1
          else set_nonce_of (<[c := 0]> (nonce_of s1)) s1).
Proof.
  intros Ha. unfold add_voter. rewrite (checksum_Return _ _ Ha). run.
  by destruct (decide (w < 0)).
Qed.

Lemma add_voter_invalid a w s :
  to_checksum_address a = None → add_voter a w s = (Raise AddressError, s).
Proof. intros Ha. unfold add_voter. by rewrite (checksum_Raise _ Ha). Qed.

(** *** [_set_delegate] *)

Lemma set_delegate_run d e dc ec s :
  to_checksum_address d = Some dc → to_checksum_address e = Some ec →
  _set_delegate d e s =
    if decide (dc = ec) then
      (Return (), set_delegate_of (delete dc (delegate_of s)) s)
    else if would_create_cycle_loop (delegate_of s) dc ∅ ec then
      (Raise (ValueError "delegation would create a cycle"), s)
    else
      (Return (), set_delegate_of (<[dc := ec]> (delegate_of s)) s).
Proof.
  intros Hd He. unfold _set_delegate, _would_create_cycle.
  rewrite (checksum_Return _ _ Hd), (checksum_Return _ _ He). run.
  destruct (decide (dc = ec)); [done|].
  rewrite (checksum_fixed _ _ Hd), (checksum_fixed _ _ He). run.
  by destruct (would_create_cycle_loop _ _ _ _).
Qed.

Lemma set_delegate_invalid d e s :
  to_checksum_address d = None ∨ to_checksum_address e = None →
  _set_delegate d e s = (Raise AddressError, s).
Proof.
  intros Hde. unfold _set_delegate.
  destruct (to_checksum_address d) as [dc|] eqn:Hd.
  - destruct Hde as [|He]; [done|].
    rewrite (checksum_Return _ _ Hd), (checksum_Raise _ He). by run.
  - rewrite (checksum_Raise _ Hd). by run.
Qed.

Lemma set_delegate_cases d e s :
  set_delegate_effect s (_set_delegate d e s).1 (_set_delegate d e s).2.
Proof.
  destruct (to_checksum_address d) as [dc|] eqn:Hd;
    [destruct (to_checksum_address e) as [ec|] eqn:He|].
  - rewrite (set_delegate_run d e dc ec) by done.
    destruct (decide (dc = ec)); [constructor|].
    destruct (would_create_cycle_loop _ _ _ _) eqn:Hloop; by constructor.
  - rewrite set_delegate_invalid by auto. constructor.
  - rewrite set_delegate_invalid by auto. constructor.
Qed.

(** *** [apply_delegation_signature] *)

Lemma get_nonce_run a c s :
  to_checksum_address a = Some c →
  get_nonce a s = Return (default 0 (nonce_of s !! c)).
Proof. intros Ha. unfold get_nonce. by rewrite (checksum_Return _ _ Ha). Qed.

Lemma apply_delegation_signature_run now sig d e n dl dc ec s :
  to_checksum_address d = Some dc → to_checksum_address e = Some ec →
  apply_delegation_signature now sig d e n dl s =
    if decide (now > dl) then
      (Raise (ValueError "delegation signature expired"), s)
    else if decide (n ≠ default 0 (nonce_of s !! dc)) then
      (Raise (ValueError "invalid nonce for delegator"), s)
    else
      match recover_delegator (verifier s)
              {| delegator := dc; delegatee := ec; nonce := n; deadline := dl |}
              sig with
      | Raise x => (Raise x, s)
      | Return recovered =>
          if decide (recovered ≠ dc) then
            (Raise (ValueError "invalid signature: signer is not delegator"), s)
          else
            match _set_delegate dc ec s with
            | (Return _, s') =>
                (Return (), set_nonce_of (<[dc := n + 1]> (nonce_of s')) s')
            | (Raise x, s') => (Raise x, s')
            end
      end.
Proof.
  intros Hd He. unfold apply_delegation_signature.
  destruct (decide (now > dl)); [done|].
  rewrite (checksum_Return _ _ Hd), (checksum_Return _ _ He). run.
  rewrite (get_nonce_run dc dc) by by apply (checksum_idem d).
  destruct (decide (n ≠ _)) as [|Hn%dec_stable]; [done|].
  destruct (recover_delegator _ _ _) as [recovered|x]; [|done].
  destruct (decide (recovered ≠ dc)); [done|].
  destruct (_set_delegate dc ec s) as [[[]|x] s']; [|done].
  by rewrite <-Hn.
Qed.

Lemma apply_delegation_signature_invalid now sig d e n dl s :
  to_checksum_address d = None ∨ to_checksum_address e = None →
  (apply_delegation_signature now sig d e n dl s).2 = s ∧
  ∃ x, (apply_delegation_signature now sig d e n dl s).1 = Raise x.
Proof.
  intros Hde. unfold apply_delegation_signature.
  destruct (decide (now > dl)); [by eauto|].
  destruct (to_checksum_address d) as [dc|] eqn:Hd.
  - destruct Hde as [|He]; [done|].
    rewrite (checksum_Return _ _ Hd), (checksum_Raise _ He). run. eauto.
  - rewrite (checksum_Raise _ Hd). run. eauto.
Qed.

(** *** [_resolve_final_delegate] and the power map *)

Lemma resolve_final_delegate_run a c s :
  to_checksum_address a = Some c →
  _resolve_final_delegate a s = Return (resolve_loop (delegate_of s) ∅ c).1.
Proof.
  intros Ha. unfold _resolve_final_delegate. by rewrite (checksum_Return _ _ Ha).
Qed.

Lemma resolve_final_delegate_invalid a s :
  to_checksum_address a = None →
  _resolve_final_delegate a s = Raise AddressError.
Proof.
  intros Ha. unfold _resolve_final_delegate. by rewrite (checksum_Raise _ Ha).
Qed.

Lemma power_step_Return s j z (p : gmap string Z) :
  power_step s j z (Return p) =
  if decide (z = 0) then Return p
  else match to_checksum_address j with
       | None => Raise AddressError
       | Some c =>
           let f := (resolve_loop (delegate_of s) ∅ c).1 in
           Return (<[f := default 0 (p !! f) + z]> p)
       end.
Proof.
  unfold power_step. run. destruct (decide (z = 0)); [done|].
  destruct (to_checksum_address j) as [c|] eqn:Hj.
  - by rewrite (resolve_final_delegate_run _ _ _ Hj).
  - by rewrite (resolve_final_delegate_invalid _ _ Hj).
Qed.

(** The passes of the [for] loop can be taken in any order. *)
Lemma power_step_comm s j1 j2 z1 z2 y :
  power_step s j1 z1 (power_step s j2 z2 y) =
  power_step s j2 z2 (power_step s j1 z1 y).
Proof.
  destruct y as [p|x]; [|done].
  rewrite (power_step_Return s j2), (power_step_Return s j1).
  destruct (to_checksum_address j1) as [c1|] eqn:Hc1,
    (to_checksum_address j2) as [c2|] eqn:Hc2;
    repeat case_decide; rewrite ?power_step_Return, ?Hc1, ?Hc2;
    repeat case_decide; try done.
  cbn zeta.
  generalize (resolve_loop (delegate_of s) ∅ c1).1 as f1.
  generalize (resolve_loop (delegate_of s) ∅ c2).1 as f2. intros f2 f1.
  f_equal. destruct (decide (f1 = f2)) as [->|Hne].
  - rewrite !lookup_insert_eq, !insert_insert_eq. simpl. f_equal. lia.
  - rewrite !lookup_insert_ne by done. by apply insert_insert_ne.
Qed.

Lemma power_map_insert s w a x :
  w !! a = None →
  map_fold (power_step s) (Return ∅) (<[a := x]> w) =
  power_step s a x (map_fold (power_step s) (Return ∅) w).
Proof. intros Ha. apply map_fold_insert_L; [|done]. intros. apply power_step_comm. Qed.

Lemma sum_values_empty : sum_values ∅ = 0.
Proof. apply map_fold_empty. Qed.

Lemma sum_values_insert_None (p : gmap string Z) k v :
  p !! k = None → sum_values (<[k := v]> p) = v + sum_values p.
Proof.
  intros Hk. unfold sum_values. apply map_fold_insert_L; [|done]. intros. lia.
Qed.

Lemma sum_values_insert (p : gmap string Z) k v :
  sum_values (<[k := v]> p) = sum_values p - default 0 (p !! k) + v.
Proof.
  destruct (p !! k) as [x|] eqn:Hk; simpl.
  - rewrite <-(insert_delete_id p k x) at 2 by done.
    rewrite <-(insert_delete_eq p), !sum_values_insert_None
      by apply lookup_delete_eq. lia.
  - rewrite sum_values_insert_None by done. lia.
Qed.

(** Where every registered voter is a checksum address with a weight that is
    not negative, the power map is built without an exception and holds
    exactly the weights that are positive. *)
Lemma power_map_conserves s (w : gmap string Z) :
  (∀ a x, w !! a = Some x → to_checksum_address a = Some a ∧ 0 ≤ x) →
  ∃ p, map_fold (power_step s) (Return ∅) w = Return p ∧
       sum_values p = sum_values (positive_entries w).
Proof.
  apply (map_fold_weak_ind
    (λ r w, (∀ a x, w !! a = Some x → to_checksum_address a = Some a ∧ 0 ≤ x) →
            ∃ p, r = Return p ∧ sum_values p = sum_values (positive_entries w))).
  - intros _. exists ∅. split; [done|].
    unfold positive_entries. by rewrite map_filter_empty.
  - clear w. intros a x w r Ha IH Hw.
    destruct IH as (p & -> & Hsum).
    { intros b y Hb. apply Hw. rewrite lookup_insert_ne; [done|]. congruence. }
    destruct (Hw a x) as [Hcs Hx]; [apply lookup_insert_eq|].
    rewrite power_step_Return, Hcs. unfold positive_entries. cbn zeta.
    destruct (decide (x = 0)) as [->|Hx0].
    + exists p. split; [done|]. rewrite map_filter_insert_False by (simpl; lia).
      by rewrite delete_id.
    + eexists. split; [done|].
      rewrite map_filter_insert_True by (simpl; lia).
      rewrite sum_values_insert, sum_values_insert_None
        by (by rewrite map_lookup_filter_None; left).
      fold (positive_entries w). lia.
Qed.

(** *** [create_proposal] and [vote] *)

Lemma create_proposal_run now pid t d cl s :
  create_proposal now pid t d cl s =
    if decide (pid ∈ dom (proposals s)) then
      (Raise (ValueError "proposal already exists"), s)
    else if decide (cl ≤ now) then
      (Raise (ValueError "closes_at must be in the future"), s)
    else
      (Return (),
       set_proposals (<[pid := new_proposal t d cl]> (proposals s)) s).
Proof.
  unfold create_proposal. run.
  destruct (decide (pid ∈ _)); [done|]. by destruct (decide (cl ≤ now)).
Qed.

Lemma vote_run now pid voter vc choice prop s :
  proposals s !! pid = Some prop → choice ∈ choices → now ≤ closes_at prop →
  to_checksum_address voter = Some vc →
  vote now pid voter choice s =
    let f := (resolve_loop (delegate_of s) ∅ vc).1 in
    if decide (vc ≠ f) then
      (Raise (ValueError "delegated voters cannot cast a direct vote"), s)
    else if decide (f ∈ voted prop) then
      (Raise (ValueError "already voted for this proposal"), s)
    else
      match get_effective_voting_power_map s with
      | Raise x => (Raise x, s)
      | Return power_map =>
          let weight := default 0 (power_map !! f) in
          if decide (weight ≤ 0) then (Raise (ValueError "no voting power"), s)
          else
            match tallies prop !! choice with
            | None => (Raise (KeyError choice), s)
            | Some tally =>
                (Return (weight, <[choice := tally + weight]> (tallies prop)),
                 set_proposals
                   (<[pid := cast choice tally weight f prop]> (proposals s)) s)
            end
      end.
Proof.
  intros Hp Hc Hnow Hv. unfold vote. run. rewrite Hp.
  rewrite decide_False by (by intros ?).
  rewrite decide_False by lia.
  rewrite (checksum_Return _ _ Hv). run.
  rewrite (resolve_final_delegate_run vc vc) by by apply (checksum_idem voter).
  run. set (f := (resolve_loop (delegate_of s) ∅ vc).1).
  destruct (decide (vc ≠ f)); [done|].
  destruct (decide (f ∈ voted prop)); [done|].
  destruct (get_effective_voting_power_map s) as [power_map|x]; [|done]. run.
  destruct (decide (default 0 (power_map !! f) ≤ 0)); [done|].
  destruct (tallies prop !! choice) as [tally|]; [|done]. run.
  unfold set_proposals, cast. cbn. by rewrite insert_insert_eq.
Qed.

(** Whatever [vote] does, the proposals stay and their voted-sets only grow. *)
Lemma vote_proposals now pid voter choice s :
  (vote now pid voter choice s).2 = s ∨
  ∃ prop tally weight f,
    proposals s !! pid = Some prop ∧ choice ∈ choices ∧
    tallies prop !! choice = Some tally ∧
    (vote now pid voter choice s).2 =
      set_proposals (<[pid := cast choice tally weight f prop]> (proposals s)) s.
Proof.
  destruct (proposals s !! pid) as [prop|] eqn:Hp;
    [|left; unfold vote; run; by rewrite Hp].
  destruct (decide (choice ∈ choices)) as [Hc|Hc];
    [|left; unfold vote; run; rewrite Hp; by rewrite decide_True].
  destruct (decide (now ≤ closes_at prop)) as [Hnow|Hnow];
    [|left; unfold vote; run; rewrite Hp;
      rewrite decide_False by (by intros ?); by rewrite decide_True by lia].
  destruct (to_checksum_address voter) as [vc|] eqn:Hv;
    [|left; unfold vote; run; rewrite Hp;
      rewrite decide_False by (by intros ?); rewrite decide_False by lia;
      by rewrite (checksum_Raise _ Hv)].
  rewrite (vote_run now pid voter vc choice prop) by done. cbn zeta.
  repeat (case_decide || case_match); eauto 10.
Qed.

(** What a call of [apply_delegation_signature] can do to a ledger: nothing,
    or what [_set_delegate] does followed by the write to the nonce. *)
Lemma apply_delegation_signature_cases now sig d e n dl s :
  ((apply_delegation_signature now sig d e n dl s).2 = s ∧
   ∃ x, (apply_delegation_signature now sig d e n dl s).1 = Raise x) ∨
  ∃ dc ec s',
    to_checksum_address d = Some dc ∧ to_checksum_address e = Some ec ∧
    _set_delegate dc ec s = (Return (), s') ∧
    apply_delegation_signature now sig d e n dl s =
      (Return (), set_nonce_of (<[dc := n + 1]> (nonce_of s')) s').
Proof.
  destruct (to_checksum_address d) as [dc|] eqn:Hd;
    [destruct (to_checksum_address e) as [ec|] eqn:He|];
    [|left; apply apply_delegation_signature_invalid; auto..].
  rewrite (apply_delegation_signature_run now sig d e n dl dc ec) by done.
  destruct (decide (now > dl)); [left; eauto|].
  destruct (decide (n ≠ _)); [left; eauto|].
  destruct (recover_delegator _ _ _) as [r|x]; [|left; eauto].
  destruct (decide (r ≠ dc)); [left; eauto|].
  pose proof (set_delegate_cases dc ec s) as Hsd.
  destruct (_set_delegate dc ec s) as [[[]|x] s'] eqn:Hrun.
  - right. by exists dc, ec, s'.
  - left. inversion Hsd; subst. eauto.
Qed.

(** *** The ledger invariant *)

Lemma terminating_empty : terminating ∅.
Proof. intros a. by exists 0%nat, a. Qed.

Lemma ledger_inv_new chain contract s :
  new_ledger chain contract = Return s → ledger_inv s.
Proof.
  unfold new_ledger, new_verifier. destruct (checksum contract); [|done].
  run. intros [= <-]. split; cbn; try done. apply terminating_empty.
Qed.

Lemma ledger_inv_set_delegate s r s' :
  set_delegate_effect s r s' → ledger_inv s → ledger_inv s'.
Proof.
  intros Heff [Hcs Hw Hterm Htal].
  destruct Heff as [x|dc|dc ec Hne Hloop]; split; cbn; try done.
  - by apply terminating_delete.
  - by apply terminating_insert.
Qed.

Lemma ledger_inv_set_nonce_of n s : ledger_inv s → ledger_inv (set_nonce_of n s).
Proof. by intros []. Qed.

Lemma ledger_inv_after (cl : call) s : ledger_inv s → ledger_inv (after cl s).
Proof.
  intros Hinv.
  destruct cl as [a w|now sig d e n dl|d e|now pid t d cl|now pid v ch];
    cbn.
  - destruct (to_checksum_address a) as [c|] eqn:Ha;
      [|by rewrite add_voter_invalid].
    rewrite (add_voter_run a c) by done.
    destruct (decide (w < 0)); [done|]. cbn.
    assert (ledger_inv (set_voter_weight (<[c := w]> (voter_weight s)) s))
      as Hinv'.
    { destruct Hinv as [Hcs Hw Hterm Htal]. split; cbn; try done.
      - intros b x [[<- _]|[_ Hb]]%lookup_insert_Some; [|by eapply Hcs].
        by apply (checksum_idem a).
      - intros b x [[_ <-]|[_ Hb]]%lookup_insert_Some; [lia|by eapply Hw]. }
    case_decide; [done|]. by apply ledger_inv_set_nonce_of.
  - destruct (apply_delegation_signature_cases now sig d e n dl s)
      as [[-> _]|(dc & ec & s' & _ & _ & Hsd & ->)]; [done|].
    cbn. apply ledger_inv_set_nonce_of.
    apply (ledger_inv_set_delegate s (Return ()) s'); [|done].
    pose proof (set_delegate_cases dc ec s) as Hcases. by rewrite Hsd in Hcases.
  - eapply ledger_inv_set_delegate; [apply set_delegate_cases | done].
  - rewrite create_proposal_run. repeat case_decide; try done. cbn.
    destruct Hinv as [Hcs Hw Hterm Htal]. split; cbn; try done.
    intros pid' p c [[_ <-]|[_ Hp]]%lookup_insert_Some Hc; [|by eapply Htal].
    cbn. unfold choices in Hc. set_unfold.
    destruct Hc as [->|[->|[->|[]]]]; by simplify_map_eq.
  - destruct (vote_proposals now pid v ch s)
      as [->|(prop & tally & weight & f & Hp & Hch & Htally & ->)]; [done|].
    destruct Hinv as [Hcs Hw Hterm Htal]. split; cbn; try done.
    intros pid' p c [[_ <-]|[_ Hp']]%lookup_insert_Some Hc; [|by eapply Htal].
    cbn. destruct (decide (ch = c)) as [->|Hne].
    + rewrite lookup_insert_eq. eauto.
    + rewrite lookup_insert_ne by done. by eapply Htal.
Qed.

Lemma reachable_inv s : reachable s → ledger_inv s.
Proof.
  induction 1 as [chain contract s Hnew|cl s _ IH].
  - by eapply ledger_inv_new.
  - by apply ledger_inv_after.
Qed.

(** *** What the calls leave alone *)

Lemma set_delegate_effect_frame s r s' :
  set_delegate_effect s r s' →
  verifier s' = verifier s ∧ voter_weight s' = voter_weight s ∧
  nonce_of s' = nonce_of s ∧ proposals s' = proposals s.
Proof. by intros []. Qed.

Lemma set_delegate_frame d e s r s' :
  _set_delegate d e s = (r, s') →
  verifier s' = verifier s ∧ voter_weight s' = voter_weight s ∧
  nonce_of s' = nonce_of s ∧ proposals s' = proposals s.
Proof.
  intros Hrun. pose proof (set_delegate_cases d e s) as Heff.
  rewrite Hrun in Heff. by eapply set_delegate_effect_frame.
Qed.

Lemma after_proposals (cl : call) s :
  match cl with
  | AddVoter _ _ | ApplyDelegationSignature _ _ _ _ _ _ | SetDelegate _ _ =>
      proposals (after cl s) = proposals s
  | _ => True
  end.
Proof.
  destruct cl as [a w|now sig d e n dl|d e|now pid t dsc cl|now pid v ch];
    cbn; [| | |done..].
  - destruct (to_checksum_address a) as [c|] eqn:Ha;
      [|by rewrite add_voter_invalid].
    rewrite (add_voter_run a c) by done. by repeat (case_decide; cbn).
  - destruct (apply_delegation_signature_cases now sig d e n dl s)
      as [[-> _]|(dc & ec & s' & _ & _ & Hsd & ->)]; [done|].
    cbn. by apply set_delegate_frame in Hsd as (_ & _ & _ & ->).
  - by destruct (set_delegate_frame d e s _ _ (surjective_pairing _))
      as (_ & _ & _ & ->).
Qed.

(** A final holder that has voted on a proposal stays in its voted-set. *)
Lemma voted_after (cl : call) s pid prop f :
  proposals s !! pid = Some prop → f ∈ voted prop →
  ∃ prop', proposals (after cl s) !! pid = Some prop' ∧ f ∈ voted prop'.
Proof.
  intros Hp Hf. pose proof (after_proposals cl s) as Hfr.
  destruct cl as [a w|now sig d e n dl|d e|now pid' t dsc cl|now pid' v ch];
    try (rewrite Hfr; by eauto); clear Hfr; cbn.
  - rewrite create_proposal_run.
    destruct (decide (pid' ∈ _)) as [|Hnew%not_elem_of_dom]; [by eauto|].
    case_decide; [by eauto|]. cbn. exists prop. split; [|done].
    rewrite lookup_insert_ne; [done|]. congruence.
  - destruct (vote_proposals now pid' v ch s)
      as [->|(prop' & tally & weight & g & Hp' & _ & _ & ->)]; [by eauto|].
    cbn. destruct (decide (pid' = pid)) as [->|Hne].
    + rewrite lookup_insert_eq. eexists. split; [done|].
      cbn. simplify_eq. set_solver.
    + rewrite lookup_insert_ne by done. eauto.
Qed.

Lemma voted_after_all (cls : list call) s pid prop f :
  proposals s !! pid = Some prop → f ∈ voted prop →
  ∃ prop', proposals (after_all cls s) !! pid = Some prop' ∧ f ∈ voted prop'.
Proof.
  revert s prop. induction cls as [|cl cls IH]; intros s prop Hp Hf;
    [by eauto|].
  destruct (voted_after cl s pid prop f Hp Hf) as (prop' & Hp' & Hf').
  by apply (IH (after cl s) prop').
Qed.

(** Such a final holder cannot vote on that proposal again. *)
Lemma vote_again now pid voter vc choice prop s :
  proposals s !! pid = Some prop → to_checksum_address voter = Some vc →
  vc ∈ voted prop →
  ∃ x, vote now pid voter choice s = (Raise x, s).
Proof.
  intros Hp Hv Hvoted.
  destruct (decide (choice ∈ choices)) as [Hc|Hc];
    [|unfold vote; run; rewrite Hp, decide_True by done; by eauto].
  destruct (decide (now ≤ closes_at prop)) as [Hnow|Hnow];
    [|unfold vote; run; rewrite Hp;
      rewrite decide_False by (by intros ?);
      rewrite decide_True by lia; by eauto].
  rewrite (vote_run now pid voter vc choice prop) by done. cbn zeta.
  case_decide as Hf; [by eauto|].
  rewrite decide_True by (by rewrite <-Hf). eauto.
Qed.

(** *** A ledger with one delegation *)

Lemma resolve_loop_stop m seen c :
  m !! c = None → resolve_loop m seen c = (c, seen).
Proof. intros Hc. by rewrite resolve_loop_eq, Hc. Qed.

Lemma resolve_loop_next m seen c nxt :
  m !! c = Some nxt → c ∉ seen →
  resolve_loop m seen c = resolve_loop m ({[c]} ∪ seen) nxt.
Proof. intros Hc Hs. by rewrite resolve_loop_eq, Hc, decide_False. Qed.

Lemma resolve_loop_single a b :
  a ≠ b →
  (resolve_loop (<[a := b]> ∅) ∅ a).1 = b ∧
  (resolve_loop (<[a := b]> ∅) ∅ b).1 = b.
Proof.
  intros Hab.
  assert ((<[a := b]> ∅ : gmap string string) !! b = None) as Hb
    by (by rewrite lookup_insert_ne).
  split.
  - rewrite (resolve_loop_next _ _ a b) by (apply lookup_insert_eq || set_solver).
    by rewrite resolve_loop_stop.
  - by rewrite resolve_loop_stop.
Qed.

Lemma new_ledger_Return chain contract s :
  new_ledger chain contract = Return s →
  ∃ v, s = {| verifier := v; voter_weight := ∅; delegate_of := ∅;
              nonce_of := ∅; proposals := ∅ |}.
Proof.
  unfold new_ledger, new_verifier. destruct (checksum contract); [|done].
  run. intros [= <-]. eauto.
Qed.

(** The first delegation a ledger accepts, between different addresses. *)
Lemma first_delegation now sig d e n dl dc ec s s' :
  to_checksum_address d = Some dc → to_checksum_address e = Some ec →
  dc ≠ ec → delegate_of s = ∅ →
  apply_delegation_signature now sig d e n dl s = (Return (), s') →
  s' = set_nonce_of (<[dc := n + 1]> (nonce_of s))
         (set_delegate_of (<[dc := ec]> ∅) s).
Proof.
  intros Hd He Hne Hempty.
  rewrite (apply_delegation_signature_run now sig d e n dl dc ec) by done.
  rewrite (set_delegate_run dc ec dc ec) by (by eapply checksum_idem).
  rewrite Hempty, would_create_cycle_loop_eq, lookup_empty.
  repeat case_decide; try done.
  destruct (recover_delegator _ _ _); [|done].
  repeat case_decide; try done. by intros [= <-].
Qed.

Lemma first_delegation_accepted now sig d e n dl dc ec s :
  to_checksum_address d = Some dc → to_checksum_address e = Some ec →
  dc ≠ ec → delegate_of s = ∅ → now ≤ dl →
  n = default 0 (nonce_of s !! dc) →
  recover_delegator (verifier s)
    {| delegator := dc; delegatee := ec; nonce := n; deadline := dl |} sig
    = Return dc →
  apply_delegation_signature now sig d e n dl s =
    (Return (),
     set_nonce_of (<[dc := n + 1]> (nonce_of s))
       (set_delegate_of (<[dc := ec]> ∅) s)).
Proof.
  intros Hd He Hne Hempty Hnow Hn Hsig.
  rewrite (apply_delegation_signature_run now sig d e n dl dc ec) by done.
  rewrite (set_delegate_run dc ec dc ec) by (by eapply checksum_idem).
  rewrite Hempty, would_create_cycle_loop_eq, lookup_empty, Hsig.
  repeat case_decide; done || lia.
Qed.

(** *** Every outcome of the writing methods *)

Lemma add_voter_outcome a w s :
  (∃ x, add_voter a w s = (Raise x, s)) ∨
  ∃ c, to_checksum_address a = Some c ∧ 0 ≤ w ∧
       add_voter a w s =
         (Return (),
          set_nonce_of
            (if decide (c ∈ dom (nonce_of s)) then nonce_of s
             else <[c := 0]> (nonce_of s))
            (set_voter_weight (<[c := w]> (voter_weight s)) s)).
Proof.
  destruct (to_checksum_address a) as [c|] eqn:Ha;
    [|left; rewrite add_voter_invalid by done; eauto].
  rewrite (add_voter_run a c) by done.
  destruct (decide (w < 0)); [left; eauto|].
  right. exists c. split_and!; [done|lia|]. cbn.
  by destruct (decide (c ∈ dom (nonce_of s))), s.
Qed.

Lemma set_delegate_outcome d e s :
  (∃ x, _set_delegate d e s = (Raise x, s)) ∨
  ∃ dc ec m',
    to_checksum_address d = Some dc ∧ to_checksum_address e = Some ec ∧
    ((dc = ec ∧ m' = delete dc (delegate_of s)) ∨
     (dc ≠ ec ∧ would_create_cycle_loop (delegate_of s) dc ∅ ec = false ∧
      m' = <[dc := ec]> (delegate_of s))) ∧
    _set_delegate d e s = (Return (), set_delegate_of m' s).
Proof.
  destruct (to_checksum_address d) as [dc|] eqn:Hd;
    [destruct (to_checksum_address e) as [ec|] eqn:He|];
    [|left; rewrite set_delegate_invalid by auto; eauto..].
  rewrite (set_delegate_run d e dc ec) by done.
  destruct (decide (dc = ec)) as [Heq|Hne]; [right; by eauto 10|].
  destruct (would_create_cycle_loop _ _ _ _) eqn:Hloop; [left; eauto|].
  right. exists dc, ec. eauto 10.
Qed.

Lemma apply_delegation_signature_outcome now sig d e n dl s :
  (∃ x, apply_delegation_signature now sig d e n dl s = (Raise x, s)) ∨
  ∃ dc ec m',
    to_checksum_address d = Some dc ∧ to_checksum_address e = Some ec ∧
    now ≤ dl ∧ n = default 0 (nonce_of s !! dc) ∧
    recover_delegator (verifier s)
      {| delegator := dc; delegatee := ec; nonce := n; deadline := dl |} sig
      = Return dc ∧
    ((dc = ec ∧ m' = delete dc (delegate_of s)) ∨
     (dc ≠ ec ∧ would_create_cycle_loop (delegate_of s) dc ∅ ec = false ∧
      m' = <[dc := ec]> (delegate_of s))) ∧
    apply_delegation_signature now sig d e n dl s =
      (Return (),
       set_nonce_of (<[dc := n + 1]> (nonce_of s)) (set_delegate_of m' s)).
Proof.
  destruct (to_checksum_address d) as [dc|] eqn:Hd;
    [destruct (to_checksum_address e) as [ec|] eqn:He|].
  2,3: left;
    destruct (apply_delegation_signature_invalid now sig d e n dl s)
      as [Hs [x Hx]]; [by auto|]; exists x;
    by rewrite (surjective_pairing (apply_delegation_signature _ _ _ _ _ _ _)),
      Hs, Hx.
  rewrite (apply_delegation_signature_run now sig d e n dl dc ec) by done.
  destruct (decide (now > dl)); [left; eauto|].
  destruct (decide (n ≠ _)) as [|Hn]; [left; eauto|].
  destruct (recover_delegator _ _ _) as [r|x] eqn:Hsig; [|left; eauto].
  destruct (decide (r ≠ dc)) as [|Hr]; [left; eauto|].
  assert (r = dc) as -> by (by destruct (decide (r = dc))).
  assert (n = default 0 (nonce_of s !! dc)) as Hn'
    by (by destruct (decide (n = default 0 (nonce_of s !! dc)))).
  rewrite (set_delegate_run dc ec dc ec) by (by eapply checksum_idem).
  destruct (decide (dc = ec)) as [Heq|Hne].
  { right. exists dc, ec, (delete dc (delegate_of s)).
    split_and!; try done; try lia; by left. }
  destruct (would_create_cycle_loop _ _ _ _) eqn:Hloop; [left; eauto|].
  right. exists dc, ec, (<[dc := ec]> (delegate_of s)).
  split_and!; try done; try lia; by right.
Qed.

Lemma vote_outcome now pid voter choice s :
  (∃ x, vote now pid voter choice s = (Raise x, s)) ∨
  ∃ prop tally vc power_map w,
    proposals s !! pid = Some prop ∧ choice ∈ choices ∧
    now ≤ closes_at prop ∧ to_checksum_address voter = Some vc ∧
    final_delegate (delegate_of s) vc = vc ∧ (vc ∉ voted prop) ∧
    get_effective_voting_power_map s = Return power_map ∧
    w = default 0 (power_map !! vc) ∧ 0 < w ∧
    tallies prop !! choice = Some tally ∧
    vote now pid voter choice s =
      (Return (w, <[choice := tally + w]> (tallies prop)),
       set_proposals (<[pid := cast choice tally w vc prop]> (proposals s)) s).
Proof.
  destruct (proposals s !! pid) as [prop|] eqn:Hp;
    [|left; unfold vote; run; rewrite Hp; by eauto].
  destruct (decide (choice ∈ choices)) as [Hc|Hc];
    [|left; unfold vote; run; rewrite Hp; rewrite decide_True by done;
      by eauto].
  destruct (decide (now ≤ closes_at prop)) as [Hnow|Hnow];
    [|left; unfold vote; run; rewrite Hp;
      rewrite decide_False by (by intros ?); rewrite decide_True by lia;
      by eauto].
  destruct (to_checksum_address voter) as [vc|] eqn:Hv;
    [|left; unfold vote; run; rewrite Hp;
      rewrite decide_False by (by intros ?); rewrite decide_False by lia;
      rewrite (checksum_Raise _ Hv); by eauto].
  rewrite (vote_run now pid voter vc choice prop) by done. cbn zeta.
  fold (final_delegate (delegate_of s) vc).
  destruct (decide (vc ≠ final_delegate (delegate_of s) vc)) as [|Hf];
    [left; eauto|].
  assert (final_delegate (delegate_of s) vc = vc) as Hf'
    by (by destruct (decide (final_delegate (delegate_of s) vc = vc))).
  rewrite Hf'.
  destruct (decide (vc ∈ voted prop)); [left; eauto|].
  destruct (get_effective_voting_power_map s) as [pm|x] eqn:Hpm;
    [|left; eauto].
  destruct (decide (default 0 (pm !! vc) ≤ 0)); [left; eauto|].
  destruct (tallies prop !! choice) as [tally|] eqn:Ht; [|left; eauto].
  right. exists prop, tally, vc, pm, (default 0 (pm !! vc)).
  split_and!; try done. lia.
Qed.

(** *** Final delegates *)

(** Where the chain from [a] ends, there the loop stops. *)
Lemma final_delegate_unique m a n t :
  follow m n a = Some t → m !! t = None → final_delegate m a = t.
Proof.
  intros Hn Ht. unfold final_delegate.
  destruct (resolve_loop_walked m a ∅ a 0 (walked_empty m a) eq_refl)
    as (k & _ & Hw & Hk & Hstop).
  set (r := (resolve_loop m ∅ a).1) in *.
  assert (m !! r = None) as Hr.
  { destruct Hstop as [|Hseen]; [done|exfalso].
    apply (walked_elem _ _ _ _ Hw) in Hseen as (i & Hi & Hx).
    by apply (follow_end_no_revisit m n a t i k r). }
  destruct (Nat.lt_trichotomy k n) as [Hlt|[->|Hgt]].
  - by rewrite (follow_past_end m k n a r) in Hn.
  - congruence.
  - by rewrite (follow_past_end m n k a t) in Hk.
Qed.

Lemma final_delegate_end m a : acyclic m → m !! final_delegate m a = None.
Proof. apply resolve_loop_end. Qed.

Lemma final_delegate_self m a : m !! a = None → final_delegate m a = a.
Proof. intros Ha. by apply (final_delegate_unique m a 0). Qed.

(** The final delegate is the argument or the target of an edge. *)
Lemma final_delegate_source m a :
  final_delegate m a = a ∨ ∃ x, m !! x = Some (final_delegate m a).
Proof.
  unfold final_delegate.
  destruct (resolve_loop_walked m a ∅ a 0 (walked_empty m a) eq_refl)
    as ([|k] & _ & _ & Hk & _).
  - left. by injection Hk.
  - right. rewrite follow_S_r in Hk.
    destruct (follow m k a) as [x|]; [by exists x | done].
Qed.

(** The chain from the new delegatee is the same before and after the edge
    is written. *)
Lemma insert_keeps_chain m d e :
  d ≠ e → would_create_cycle_loop m d ∅ e = false →
  ∃ n t, follow m n e = Some t ∧ m !! t = None ∧
         follow (<[d := e]> m) n e = Some t ∧ <[d := e]> m !! t = None.
Proof.
  intros Hde Hloop.
  destruct (would_create_cycle_loop_false m d e ∅ e 0 eq_refl Hloop)
    as (n & t & _ & Hn & Ht & Havoid).
  assert (∀ k c, (k ≤ n)%nat → follow m (n - k) e = Some c →
                 follow (<[d := e]> m) k c = Some t ∧ c ≠ d) as Htail.
  { induction k as [|k IH]; intros c Hk Hc.
    - replace (n - 0)%nat with n in Hc by lia. split; [simpl; congruence|].
      intros ->. destruct n as [|n']; [simplify_eq/=; done|].
      apply (Havoid (S n')); [lia | done].
    - assert (c ≠ d) as Hcd.
      { intros ->. destruct (n - S k)%nat as [|p] eqn:Hp; [simplify_eq/=; done|].
        apply (Havoid (S p)); [lia | done]. }
      split; [|done]. simpl. rewrite lookup_insert_ne by done.
      assert (follow m (S (n - S k)) e = follow m (n - k) e) as Hstep
        by (f_equal; lia).
      rewrite follow_S_r, Hc in Hstep. simpl in Hstep.
      destruct (follow_prefix m n (n - k) e t Hn) as [b Hb]; [lia|].
      rewrite Hb in Hstep. rewrite Hstep. simpl. apply IH; [lia | done]. }
  exists n, t. split_and!; [done..| |].
  - apply (Htail n e); [lia | by rewrite Nat.sub_diag].
  - destruct (Htail 0%nat t) as [_ Htd]; [lia | by rewrite Nat.sub_0_r |].
    by rewrite lookup_insert_ne.
Qed.

(** *** Sums of tallies *)

Lemma sum_values_nonneg (p : gmap string Z) :
  (∀ k v, p !! k = Some v → 0 ≤ v) → 0 ≤ sum_values p.
Proof.
  unfold sum_values.
  apply (map_fold_weak_ind
    (λ r (p : gmap string Z), (∀ k v, p !! k = Some v → 0 ≤ v) → 0 ≤ r)).
  - done.
  - clear p. intros k v p r Hk IH Hp.
    pose proof (Hp k v (lookup_insert_eq _ _ _)).
    assert (0 ≤ r); [|lia].
    apply IH. intros k' v' Hk'. apply (Hp k').
    rewrite lookup_insert_ne; [done|congruence].
Qed.

(** *** The second ledger invariant *)

Lemma proposal_wf_new t dsc cl : proposal_wf (new_proposal t dsc cl).
Proof.
  split; cbn.
  - rewrite !dom_insert_L, dom_empty_L. unfold choices. set_solver.
  - intros c x Hc. apply lookup_insert_Some in Hc as [[_ <-]|[_ Hc]]; [done|].
    apply lookup_insert_Some in Hc as [[_ <-]|[_ Hc]]; [done|].
    apply lookup_insert_Some in Hc as [[_ <-]|[_ Hc]]; done.
  - split; [intros _; reflexivity | done].
  - set_solver.
Qed.

Lemma proposal_wf_cast choice tally w vc prop :
  proposal_wf prop → tallies prop !! choice = Some tally → 0 < w →
  to_checksum_address vc = Some vc →
  proposal_wf (cast choice tally w vc prop).
Proof.
  intros [Hdom Hnn Hempty Hcs] Htally Hw Hvc.
  pose proof (Hnn choice tally Htally) as Htally0. split; cbn.
  - rewrite dom_insert_L, Hdom. apply elem_of_dom_2 in Htally. set_solver.
  - intros c x [[_ <-]|[_ Hc]]%lookup_insert_Some; [lia | by eapply Hnn].
  - rewrite sum_values_insert, Htally. cbn.
    pose proof (sum_values_nonneg (tallies prop) Hnn).
    split; [set_solver | lia].
  - intros v [->%elem_of_singleton|Hv]%elem_of_union; [done | by apply Hcs].
Qed.

Lemma ledger_wf_new chain contract s :
  new_ledger chain contract = Return s → ledger_wf s.
Proof. intros (v & ->)%new_ledger_Return. by split. Qed.

Lemma ledger_wf_after (cl : call) s : ledger_wf s → ledger_wf (after cl s).
Proof.
  intros [Hreg Hnonce Hedges Hprops].
  destruct cl as [a w|now sig d e n dl|d e|now pid t dsc cl|now pid v ch];
    cbn.
  - destruct (add_voter_outcome a w s) as [[x ->]|(c & Ha & Hw & ->)];
      [by split|].
    assert (to_checksum_address c = Some c) as Hc by by eapply checksum_idem.
    split; cbn; try done.
    + intros b x [[<- _]|[_ Hb]]%lookup_insert_Some.
      * case_decide as Hin; [by apply elem_of_dom | by rewrite lookup_insert_eq].
      * apply Hreg in Hb. case_decide; [done|].
        destruct (decide (c = b)) as [->|];
          [by rewrite lookup_insert_eq | by rewrite lookup_insert_ne].
    + intros b x. case_decide; [by apply Hnonce|].
      intros [[<- <-]|[_ Hb]]%lookup_insert_Some; [done | by eapply Hnonce].
  - destruct (apply_delegation_signature_outcome now sig d e n dl s)
      as [[x ->]|(dc & ec & m' & Hd & He & _ & Hn & _ & Hm' & ->)];
      [by split|].
    assert (to_checksum_address dc = Some dc) by by eapply checksum_idem.
    assert (to_checksum_address ec = Some ec) by by eapply checksum_idem.
    split; cbn; try done.
    + intros b x Hb%Hreg. destruct (decide (dc = b)) as [->|];
        [by rewrite lookup_insert_eq | by rewrite lookup_insert_ne].
    + intros b x [[<- <-]|[_ Hb]]%lookup_insert_Some; [|by eapply Hnonce].
      split; [done|]. subst n.
      destruct (nonce_of s !! dc) as [k|] eqn:Hk; cbn; [|lia].
      apply Hnonce in Hk. lia.
    + destruct Hm' as [[_ ->]|(_ & _ & ->)].
      * intros a b [_ Hab]%lookup_delete_Some. by eapply Hedges.
      * intros a b [[<- <-]|[_ Hab]]%lookup_insert_Some;
          [done | by eapply Hedges].
  - destruct (set_delegate_outcome d e s)
      as [[x ->]|(dc & ec & m' & Hd & He & Hm' & ->)]; [by split|].
    assert (to_checksum_address dc = Some dc) by by eapply checksum_idem.
    assert (to_checksum_address ec = Some ec) by by eapply checksum_idem.
    split; cbn; try done.
    destruct Hm' as [[_ ->]|(_ & _ & ->)].
    + intros a b [_ Hab]%lookup_delete_Some. by eapply Hedges.
    + intros a b [[<- <-]|[_ Hab]]%lookup_insert_Some;
        [done | by eapply Hedges].
  - rewrite create_proposal_run. repeat case_decide; try by split.
    split; cbn; try done.
    intros pid' p [[_ <-]|[_ Hp]]%lookup_insert_Some;
      [apply proposal_wf_new | by eapply Hprops].
  - destruct (vote_outcome now pid v ch s)
      as [[x ->]|(prop & tally & vc & pm & w & Hp & _ & _ & Hv & _ & _ & _ & _
                  & Hw & Htally & ->)]; [by split|].
    split; cbn; try done.
    intros pid' p [[_ <-]|[_ Hp']]%lookup_insert_Some; [|by eapply Hprops].
    apply proposal_wf_cast; [by eapply Hprops|done..|by eapply checksum_idem].
Qed.

Lemma reachable_wf s : reachable s → ledger_wf s.
Proof.
  induction 1 as [chain contract s Hnew|cl s _ IH].
  - by eapply ledger_wf_new.
  - by apply ledger_wf_after.
Qed.

Lemma reachable_final_delegate s a :
  reachable s → to_checksum_address a = Some a →
  delegate_of s !! final_delegate (delegate_of s) a = None ∧
  to_checksum_address (final_delegate (delegate_of s) a)
    = Some (final_delegate (delegate_of s) a).
Proof.
  intros Hs Ha. split.
  - apply final_delegate_end, terminating_acyclic. by apply reachable_inv.
  - destruct (final_delegate_source (delegate_of s) a) as [->|[x Hx]]; [done|].
    by apply (wf_edges s (reachable_wf s Hs)) in Hx as [_ ?].
Qed.

(** *** The nonces only grow *)

Lemma nonce_after (cl : call) s a :
  default 0 (nonce_of s !! a) ≤ default 0 (nonce_of (after cl s) !! a).
Proof.
  destruct cl as [b w|now sig d e n dl|d e|now pid t dsc cl|now pid v ch];
    cbn.
  - destruct (add_voter_outcome b w s) as [[x ->]|(c & _ & _ & ->)]; [done|].
    cbn. case_decide as Hin; [done|]. apply not_elem_of_dom in Hin.
    destruct (decide (c = a)) as [->|];
      [by rewrite lookup_insert_eq, Hin | by rewrite lookup_insert_ne].
  - destruct (apply_delegation_signature_outcome now sig d e n dl s)
      as [[x ->]|(dc & ec & m' & _ & _ & _ & Hn & _ & _ & ->)]; [done|].
    cbn. destruct (decide (dc = a)) as [->|];
      [rewrite lookup_insert_eq; cbn; lia | by rewrite lookup_insert_ne].
  - by destruct (set_delegate_frame d e s _ _ (surjective_pairing _))
      as (_ & _ & -> & _).
  - rewrite create_proposal_run. by repeat case_decide.
  - by destruct (vote_outcome now pid v ch s)
      as [[x ->]|(? & ? & ? & ? & ? & _ & _ & _ & _ & _ & _ & _ & _ & _ & _
                  & ->)].
Qed.

Lemma nonce_after_all (cls : list call) s a :
  default 0 (nonce_of s !! a) ≤ default 0 (nonce_of (after_all cls s) !! a).
Proof.
  revert s. induction cls as [|cl cls IH]; intros s; [done|]. cbn.
  etrans; [apply (nonce_after cl)|apply IH].
Qed.

End Methods.

(** * The properties *)

Section Properties.
Context {E : External} {EL : ExternalLaws E}.
Implicit Types (s : Ledger) (a c d e : string) (m : gmap string string).

Lemma reachable_acyclic s : reachable s → acyclic (delegate_of s).
Proof.
  intros Hs. apply terminating_acyclic. by apply reachable_inv.
Qed.

(** C1. The delegation edges are acyclic in every reachable ledger.
    [_set_delegate] with a delegatee other than the delegator walks forward
    from the delegatee over the existing edges; whenever that walk comes to
    the delegator or comes twice to the same address, the call raises
    "delegation would create a cycle" and the ledger is as before; otherwise
    it writes the edge, over any earlier edge of the delegator, and an acyclic
    edge map stays acyclic. *)
Theorem set_delegate_acyclic :
  (∀ s, reachable s → acyclic (delegate_of s)) ∧
  (∀ s d e dc ec,
     to_checksum_address d = Some dc → to_checksum_address e = Some ec →
     dc ≠ ec →
     (walk_hits (delegate_of s) dc ec →
        _set_delegate d e s =
          (Raise (ValueError "delegation would create a cycle"), s)) ∧
     (¬ walk_hits (delegate_of s) dc ec →
        _set_delegate d e s =
          (Return (), set_delegate_of (<[dc := ec]> (delegate_of s)) s) ∧
        (acyclic (delegate_of s) → acyclic (<[dc := ec]> (delegate_of s))))).
Proof.
  split; [apply reachable_acyclic|].
  intros s d e dc ec Hd He Hne.
  rewrite (set_delegate_run d e dc ec) by done.
  rewrite decide_False by done. split.
  - intros Hhits%would_create_cycle_loop_hits. by rewrite Hhits.
  - intros Hhits.
    destruct (would_create_cycle_loop (delegate_of s) dc ∅ ec) eqn:Hloop.
    { by apply would_create_cycle_loop_hits in Hloop. }
    split; [done|]. intros Hacyc.
    apply terminating_acyclic, terminating_insert; [|done..].
    by apply acyclic_terminating.
Qed.

(** C7. For every delegator and every edge map, [_set_delegate] with the
    delegatee equal to the delegator returns, removes the outgoing edge of
    the delegator if there is one, and changes nothing else; the delegator is
    then its own final delegate. *)
Theorem set_delegate_self s d dc :
  to_checksum_address d = Some dc →
  _set_delegate d d s =
    (Return (), set_delegate_of (delete dc (delegate_of s)) s) ∧
  (∀ a, a ≠ dc →
     delete dc (delegate_of s) !! a = delegate_of s !! a) ∧
  delete dc (delegate_of s) !! dc = None ∧
  _resolve_final_delegate d
    (set_delegate_of (delete dc (delegate_of s)) s) = Return dc.
Proof.
  intros Hd. split_and!.
  - rewrite (set_delegate_run d d dc dc) by done. by rewrite decide_True.
  - intros a Ha. by apply lookup_delete_ne.
  - apply lookup_delete_eq.
  - rewrite (resolve_final_delegate_run d dc) by done. cbn.
    by rewrite resolve_loop_eq, lookup_delete_eq.
Qed.


(** C9. [_resolve_final_delegate] returns for every address and every edge
    map, also one with a cycle: its loop follows n edges, n being at most the
    number of addresses with an outgoing edge, every address it passes has an
    outgoing edge, and it stops at an address without one or at one it has
    passed.  In a reachable ledger it stops at an address without an outgoing
    edge, the first one of the chain (the argument itself when n = 0). *)
Theorem resolve_final_delegate_terminates s addr c :
  to_checksum_address addr = Some c →
  ∃ r seen n,
    resolve_loop (delegate_of s) ∅ c = (r, seen) ∧
    _resolve_final_delegate addr s = Return r ∧
    size seen = n ∧ (n ≤ size (delegate_of s))%nat ∧
    follow (delegate_of s) n c = Some r ∧
    (∀ i x, (i < n)%nat → follow (delegate_of s) i c = Some x →
            is_Some (delegate_of s !! x)) ∧
    (delegate_of s !! r = None ∨
     ∃ i, (i < n)%nat ∧ follow (delegate_of s) i c = Some r) ∧
    (reachable s → delegate_of s !! r = None).
Proof.
  intros Hc. set (m := delegate_of s).
  destruct (resolve_loop_walked m c ∅ c 0 (walked_empty m c) eq_refl)
    as (n & _ & Hw & Hn & Hstop).
  pose proof (resolve_loop_end m c) as Hend.
  rewrite (resolve_final_delegate_run addr c) by done. fold m.
  destruct (resolve_loop m ∅ c) as [r seen]. cbn in *.
  exists r, seen, n. destruct Hw as [Hsz Hdom Hel]. split_and!; try done.
  - rewrite <-Hsz, <-(size_dom (D:=gset string) m). by apply subseteq_size.
  - intros i x Hi Hx. by apply (follow_before m n i c r x).
  - destruct Hstop as [|Hin%Hel]; [by left | by right].
  - intros Hs. by apply Hend, reachable_acyclic.
Qed.

(** C4. In every reachable ledger [get_effective_voting_power_map] returns
    a map whose values sum to the sum of the positive entries of
    [voter_weight]. *)
Theorem power_map_conservation s :
  reachable s →
  ∃ power, get_effective_voting_power_map s = Return power ∧
           sum_values power = sum_values (positive_entries (voter_weight s)).
Proof.
  intros [Hcs Hw _ _]%reachable_inv. apply power_map_conserves.
  intros a x Ha. split; [by eapply Hcs | by eapply Hw].
Qed.

(** C2. [apply_delegation_signature] is all or nothing.  Whenever it raises,
    the ledger, and so the edge map and every nonce, is as before the call:
    "delegation signature expired" when now > deadline, "invalid nonce for
    delegator" when the nonce is not the delegator's current one, the
    exception of the recovery when that fails, "invalid signature: signer is
    not delegator" when the recovered signer is not the delegator, and
    "delegation would create a cycle" from [_set_delegate].  When it returns,
    every check has passed, the edge map is the one [_set_delegate] leaves
    and the delegator's nonce is one more than before. *)
Theorem apply_delegation_signature_atomic now sig d e n dl s :
  (∀ x s', apply_delegation_signature now sig d e n dl s = (Raise x, s') →
           s' = s) ∧
  (now > dl →
     apply_delegation_signature now sig d e n dl s =
       (Raise (ValueError "delegation signature expired"), s)) ∧
  (∀ dc ec,
     to_checksum_address d = Some dc → to_checksum_address e = Some ec →
     now ≤ dl →
     let msg := {| delegator := dc; delegatee := ec;
                   nonce := n; deadline := dl |} in
     (get_nonce d s ≠ Return n →
        apply_delegation_signature now sig d e n dl s =
          (Raise (ValueError "invalid nonce for delegator"), s)) ∧
     (get_nonce d s = Return n →
        (∀ x, recover_delegator (verifier s) msg sig = Raise x →
           apply_delegation_signature now sig d e n dl s = (Raise x, s)) ∧
        (∀ r, recover_delegator (verifier s) msg sig = Return r → r ≠ dc →
           apply_delegation_signature now sig d e n dl s =
             (Raise (ValueError "invalid signature: signer is not delegator"),
              s)) ∧
        (recover_delegator (verifier s) msg sig = Return dc →
           (dc ≠ ec → walk_hits (delegate_of s) dc ec →
              apply_delegation_signature now sig d e n dl s =
                (Raise (ValueError "delegation would create a cycle"), s)) ∧
           (dc ≠ ec → ¬ walk_hits (delegate_of s) dc ec →
              apply_delegation_signature now sig d e n dl s =
                (Return (),
                 set_nonce_of (<[dc := n + 1]> (nonce_of s))
                   (set_delegate_of (<[dc := ec]> (delegate_of s)) s))) ∧
           (dc = ec →
              apply_delegation_signature now sig d e n dl s =
                (Return (),
                 set_nonce_of (<[dc := n + 1]> (nonce_of s))
                   (set_delegate_of (delete dc (delegate_of s)) s)))))) ∧
  (∀ s', apply_delegation_signature now sig d e n dl s = (Return (), s') →
     ∃ dc ec,
       to_checksum_address d = Some dc ∧ to_checksum_address e = Some ec ∧
       now ≤ dl ∧ get_nonce d s = Return n ∧
       recover_delegator (verifier s)
         {| delegator := dc; delegatee := ec; nonce := n; deadline := dl |}
         sig = Return dc ∧
       (dc ≠ ec → ¬ walk_hits (delegate_of s) dc ec) ∧
       _set_delegate d e s = (Return (), set_delegate_of (delegate_of s') s) ∧
       nonce_of s' = <[dc := n + 1]> (nonce_of s)).
Proof.
  split_and!.
  - intros x s' Hrun.
    destruct (apply_delegation_signature_cases now sig d e n dl s)
      as [[Hs _]|(dc & ec & s1 & _ & _ & _ & Hret)].
    + by rewrite Hrun in Hs.
    + by rewrite Hrun in Hret.
  - intros Hnow. unfold apply_delegation_signature. by rewrite decide_True.
  - intros dc ec Hd He Hnow msg.
    rewrite (apply_delegation_signature_run now sig d e n dl dc ec) by done.
    rewrite (get_nonce_run d dc) by done.
    rewrite (set_delegate_run dc ec dc ec)
      by (by eapply checksum_idem).
    rewrite (decide_False (P := now > dl)) by lia. split.
    { intros Hn. rewrite decide_True; [done|]. congruence. }
    intros [= Hn]. rewrite decide_False by (by intros ?). fold msg.
    split_and!.
    + by intros x ->.
    + intros r -> Hr. by rewrite decide_True.
    + intros ->. rewrite decide_False by (by intros ?). split_and!.
      * intros Hne Hhits%would_create_cycle_loop_hits.
        by rewrite decide_False, Hhits.
      * intros Hne Hhits. rewrite decide_False by done.
        destruct (would_create_cycle_loop _ _ _ _) eqn:Hloop; [|done].
        by apply would_create_cycle_loop_hits in Hloop.
      * intros Heq. by rewrite decide_True.
  - intros s' Hrun.
    destruct (to_checksum_address d) as [dc|] eqn:Hd;
      [destruct (to_checksum_address e) as [ec|] eqn:He|];
      try (destruct (apply_delegation_signature_invalid now sig d e n dl s)
             as [_ [x Hx]]; [by auto|]; by rewrite Hrun in Hx).
    exists dc, ec. revert Hrun.
    rewrite (apply_delegation_signature_run now sig d e n dl dc ec) by done.
    rewrite (get_nonce_run d dc) by done.
    rewrite (set_delegate_run dc ec dc ec) by (by eapply checksum_idem).
    rewrite (set_delegate_run d e dc ec) by done.
    case_decide; [done|]. case_decide as Hn; [done|].
    destruct (recover_delegator _ _ _) as [r|x]; [|done].
    case_decide as Hr; [done|]. subst r.
    destruct (decide (dc = ec)) as [Heq|Hne].
    + intros [= <-]. split_and!; try done; try lia; by f_equal.
    + destruct (would_create_cycle_loop _ _ _ _) eqn:Hloop; [done|].
      intros [= <-]. split_and!; try done; try lia; [by f_equal|].
      intros _ Hhits%would_create_cycle_loop_hits. congruence.
Qed.

(** C5. When [apply_delegation_signature] returns, the nonce of the delegator
    is one more than before, the nonce of every address with a different
    checksum form is as before, and the voter weights and the proposals are
    as before. *)
Theorem apply_delegation_signature_nonce now sig d e n dl s s' :
  apply_delegation_signature now sig d e n dl s = (Return (), s') →
  ∃ k, get_nonce d s = Return k ∧ get_nonce d s' = Return (k + 1) ∧
       (∀ a, to_checksum_address a ≠ to_checksum_address d →
             get_nonce a s' = get_nonce a s) ∧
       voter_weight s' = voter_weight s ∧ proposals s' = proposals s.
Proof.
  intros Hrun.
  destruct (apply_delegation_signature_cases now sig d e n dl s)
    as [[_ [x Hx]]|(dc & ec & s1 & Hd & He & Hsd & Hret)];
    [by rewrite Hrun in Hx|].
  rewrite Hrun in Hret. injection Hret as ->.
  apply set_delegate_frame in Hsd as (_ & Hw & Hnonce & Hp).
  revert Hrun.
  rewrite (apply_delegation_signature_run now sig d e n dl dc ec) by done.
  case_decide; [done|]. case_decide as Hn; [done|]. intros _.
  exists n. rewrite !(get_nonce_run d dc) by done. cbn.
  rewrite lookup_insert_eq. split_and!; try done.
  - f_equal. by destruct (decide (n = default 0 (nonce_of s !! dc))).
  - intros a Ha. unfold get_nonce, checksum.
    destruct (to_checksum_address a) as [c|]; [|done]. cbn.
    rewrite lookup_insert_ne, Hnonce; [done|]. congruence.
Qed.

(** C6, as the code has it.  In a reachable ledger, for a proposal that
    exists and is open, a valid choice and a voter with checksum form [vc]
    and final delegate [f]: [vote] raises "delegated voters cannot cast a
    direct vote" exactly when [f] is not [vc]; when it is, [vote] raises
    "already voted for this proposal" exactly when [f] is in the voted-set,
    raises "no voting power" exactly when [f] is not in the voted-set and its
    effective power is at most 0, and otherwise adds the power to the tally
    of the choice, adds [f] to the voted-set and returns the power with the
    new tallies.  Whenever it raises, the ledger is as before; and after it
    has returned, no later [vote] of the final holder [f], under whatever
    spelling of its address, returns on this proposal, whatever calls come in
    between: each final holder casts at most one vote per proposal. *)
Theorem vote_cases now pid voter vc choice prop s :
  reachable s →
  proposals s !! pid = Some prop → choice ∈ choices → now ≤ closes_at prop →
  to_checksum_address voter = Some vc →
  ∃ f,
    _resolve_final_delegate voter s = Return f ∧
    (∀ x s', vote now pid voter choice s = (Raise x, s') → s' = s) ∧
    ((vote now pid voter choice s).1 =
       Raise (ValueError "delegated voters cannot cast a direct vote")
     ↔ f ≠ vc) ∧
    (f = vc →
     ∃ power,
       get_effective_voting_power f s = Return power ∧
       ((vote now pid voter choice s).1 =
          Raise (ValueError "already voted for this proposal")
        ↔ f ∈ voted prop) ∧
       ((vote now pid voter choice s).1 = Raise (ValueError "no voting power")
        ↔ (f ∉ voted prop) ∧ power ≤ 0) ∧
       (f ∉ voted prop → 0 < power →
          ∃ tally,
            tallies prop !! choice = Some tally ∧
            vote now pid voter choice s =
              (Return (power, <[choice := tally + power]> (tallies prop)),
               set_proposals
                 (<[pid := {| title := title prop;
                              description := description prop;
                              closes_at := closes_at prop;
                              tallies := <[choice := tally + power]>
                                           (tallies prop);
                              voted := {[f]} ∪ voted prop |}]>
                    (proposals s)) s) ∧
            ∀ cls now' voter' choice',
              to_checksum_address voter' = Some f →
              ∃ x, (vote now' pid voter' choice'
                      (after_all cls (vote now pid voter choice s).2)).1
                   = Raise x)).
Proof.
  intros Hs Hp Hc Hnow Hv.
  pose proof (reachable_inv s Hs) as Hinv.
  destruct (power_map_conserves s (voter_weight s)) as (pm & Hpm & _).
  { intros a x Ha. split;
      [by eapply inv_voter_checksum | by eapply inv_weight_nonneg]. }
  change (get_effective_voting_power_map s = Return pm) in Hpm.
  destruct (inv_tallies s Hinv pid prop choice Hp Hc) as [tally Htally].
  assert (to_checksum_address vc = Some vc) as Hvc by by eapply checksum_idem.
  rewrite (vote_run now pid voter vc choice prop) by done.
  rewrite (resolve_final_delegate_run voter vc) by done.
  rewrite Hpm, Htally. cbn zeta.
  remember (resolve_loop (delegate_of s) ∅ vc).1 as f eqn:Hf.
  exists f. split_and!; [done|..].
  - intros x s'. repeat case_decide; naive_solver.
  - repeat case_decide; naive_solver.
  - intros ->. exists (default 0 (pm !! vc)). split_and!.
    + unfold get_effective_voting_power.
      rewrite (resolve_final_delegate_run vc vc), Hpm by done. cbn.
      by rewrite <-Hf.
    + repeat case_decide; naive_solver.
    + repeat case_decide; naive_solver lia.
    + intros Hnv Hpos. exists tally. split; [done|].
      rewrite decide_False by (by intros ?).
      rewrite decide_False by done. rewrite decide_False by lia.
      split; [done|]. intros cls now' voter' choice' Hv'. cbn.
      match goal with |- context [after_all cls ?s1] =>
        destruct (voted_after_all cls s1 pid
                    (cast choice tally (default 0 (pm !! vc)) vc prop) vc)
          as (prop' & Hp' & Hvoted');
          [cbn; apply lookup_insert_eq
          |cbn; apply elem_of_union_l; by apply elem_of_singleton|]
      end.
      edestruct (vote_again now' pid voter' vc choice') as [x Hx]; [done..|].
      exists x. by rewrite Hx.
Qed.

(** C3, as the code has it.  A new ledger in which A is registered with
    weight 100 and B with weight 50, and A's delegation to B is then
    accepted: [get_effective_voting_power] returns 150 for B, and 150 for A
    as well, since it resolves A to its final delegate B and reads B's
    bucket of the power map. *)
Theorem effective_power_after_delegation
    chain contract s0 A B Ac Bc now sig n dl s3 :
  new_ledger chain contract = Return s0 →
  to_checksum_address A = Some Ac → to_checksum_address B = Some Bc →
  Ac ≠ Bc →
  apply_delegation_signature now sig A B n dl
    (after_all [AddVoter A 100; AddVoter B 50] s0) = (Return (), s3) →
  get_effective_voting_power B s3 = Return 150 ∧
  get_effective_voting_power A s3 = Return 150.
Proof.
  intros (v & ->)%new_ledger_Return HA HB Hne. cbn.
  rewrite (add_voter_run A Ac) by done.
  rewrite (decide_False (P := 100 < 0)) by lia. cbn.
  rewrite (add_voter_run B Bc) by done.
  rewrite (decide_False (P := 50 < 0)) by lia. cbn.
  rewrite dom_empty_L, (decide_False (P := Ac ∈ ∅)) by set_solver. cbn.
  rewrite (decide_False (P := Bc ∈ _)) by set_solver. cbn.
  intros ->%(first_delegation _ _ _ _ _ _ Ac Bc); [|done..].
  destruct (resolve_loop_single Ac Bc Hne) as [HrA HrB].
  assert (to_checksum_address Ac = Some Ac) as HAc by by eapply checksum_idem.
  assert (to_checksum_address Bc = Some Bc) as HBc by by eapply checksum_idem.
  assert (∀ s, voter_weight s = <[Bc := 50]> (<[Ac := 100]> ∅) →
               delegate_of s = <[Ac := Bc]> ∅ →
               get_effective_voting_power_map s = Return {[Bc := 150]}) as Hpm.
  { intros s Hw Hd. unfold get_effective_voting_power_map. rewrite Hw.
    rewrite power_map_insert by (by rewrite lookup_insert_ne).
    rewrite power_map_insert by done. rewrite map_fold_empty.
    rewrite power_step_Return, HAc, decide_False by done. cbn zeta.
    rewrite power_step_Return, HBc, decide_False by done. cbn zeta.
    rewrite Hd, HrA, HrB. rewrite lookup_insert_eq, lookup_empty. cbn.
    by rewrite insert_insert_eq, insert_empty. }
  unfold get_effective_voting_power.
  rewrite (resolve_final_delegate_run A Ac), (resolve_final_delegate_run B Bc)
    by done.
  repeat case_decide; cbn; rewrite Hpm by done; cbn;
    by rewrite ?HrA, ?HrB, lookup_singleton_eq.
Qed.

(** C10. Neither side of an accepted delegation has to be registered with
    [add_voter].  On a new ledger a delegation from A to B with nonce 0, a
    signature of A and a deadline not yet passed is accepted although no
    voter is registered.  When only A is registered, with a positive weight
    w, the delegation to the unregistered B is accepted, the power map is
    then { B: w }, and B's vote on an open proposal returns w and adds it to
    the tally. *)
Theorem unregistered_delegatee_votes
    chain contract s0 A B Ac Bc w now sig dl pid t dsc cl tnow tvote :
  new_ledger chain contract = Return s0 →
  to_checksum_address A = Some Ac → to_checksum_address B = Some Bc →
  Ac ≠ Bc → 0 < w → now ≤ dl →
  recover_delegator (verifier s0)
    {| delegator := Ac; delegatee := Bc; nonce := 0; deadline := dl |} sig
    = Return Ac →
  tnow < cl → tvote ≤ cl →
  (∃ s', apply_delegation_signature now sig A B 0 dl s0 = (Return (), s') ∧
         voter_weight s' = ∅) ∧
  ∃ s2 s3 s4,
    voter_weight (after (AddVoter A w) s0) !! Bc = None ∧
    apply_delegation_signature now sig A B 0 dl (after (AddVoter A w) s0)
      = (Return (), s2) ∧
    voter_weight s2 !! Bc = None ∧
    get_effective_voting_power_map s2 = Return {[Bc := w]} ∧
    create_proposal tnow pid t dsc cl s2 = (Return (), s3) ∧
    vote tvote pid B "yes" s3 =
      (Return (w, {["yes" := w; "no" := 0; "abstain" := 0]}), s4).
Proof.
  intros (v & ->)%new_ledger_Return HA HB Hne Hw Hnow Hsig Hcl Hvote.
  assert (to_checksum_address Ac = Some Ac) as HAc by by eapply checksum_idem.
  assert (to_checksum_address Bc = Some Bc) as HBc by by eapply checksum_idem.
  destruct (resolve_loop_single Ac Bc Hne) as [HrA HrB].
  cbn in Hsig. split.
  - rewrite (first_delegation_accepted now sig A B 0 dl Ac Bc) by done.
    eauto.
  - cbn. rewrite (add_voter_run A Ac) by done.
    rewrite (decide_False (P := w < 0)) by lia. cbn.
    rewrite dom_empty_L, (decide_False (P := Ac ∈ ∅)) by set_solver. cbn.
    rewrite (first_delegation_accepted now sig A B 0 dl Ac Bc)
      by (done || by cbn; rewrite lookup_insert_eq).
    assert (∀ s, voter_weight s = <[Ac := w]> ∅ →
                 delegate_of s = <[Ac := Bc]> ∅ →
                 get_effective_voting_power_map s = Return {[Bc := w]}) as Hpm.
    { intros s Hvw Hd. unfold get_effective_voting_power_map. rewrite Hvw.
      rewrite power_map_insert by done. rewrite map_fold_empty.
      rewrite power_step_Return, HAc, decide_False by lia. cbn zeta.
      rewrite Hd, HrA, lookup_empty. cbn.
      by rewrite insert_empty, Z.add_0_l. }
    do 3 eexists. split_and!.
    + by rewrite lookup_insert_ne.
    + done.
    + cbn. by rewrite lookup_insert_ne.
    + by apply Hpm.
    + rewrite create_proposal_run. cbn.
      rewrite dom_empty_L, (decide_False (P := pid ∈ ∅)) by set_solver.
      by rewrite (decide_False (P := cl ≤ tnow)) by lia.
    + erewrite (vote_run tvote pid B Bc "yes");
        [|cbn; apply lookup_insert_eq|unfold choices; set_solver|cbn; lia|done].
      cbn. rewrite HrB. rewrite (decide_False (P := Bc ≠ Bc)) by (by intros ?).
      rewrite (decide_False (P := Bc ∈ ∅)) by set_solver.
      rewrite Hpm by done.
      rewrite lookup_singleton_eq. cbn.
      rewrite (decide_False (P := w ≤ 0)) by lia.
      by rewrite lookup_insert_eq.
Qed.

End Properties.

(** * Further properties of the methods *)

Section FurtherProperties.
Context {E : External} {EL : ExternalLaws E}.
Implicit Types (s : Ledger) (a c d e f : string) (m : gmap string string).

(** X1. [add_voter] checks the address first and the weight second, and
    whenever it raises the ledger is as before.  With a valid address and a
    weight that is not negative it returns; the direct weight of the address
    is then the new weight, the direct weight of every other address and the
    nonce of every address read as before, the address has a nonce entry, and
    the edges, the proposals and the verifier are untouched. *)
Theorem add_voter_cases a w s :
  (∀ x s', add_voter a w s = (Raise x, s') → s' = s) ∧
  (to_checksum_address a = None →
     add_voter a w s = (Raise AddressError, s)) ∧
  (is_Some (to_checksum_address a) → w < 0 →
     add_voter a w s = (Raise (ValueError "weight must be non-negative"), s)) ∧
  (∀ c, to_checksum_address a = Some c → 0 ≤ w →
     ∃ s', add_voter a w s = (Return (), s') ∧
           get_direct_weight a s' = Return w ∧
           (∀ b, to_checksum_address b ≠ Some c →
                 get_direct_weight b s' = get_direct_weight b s) ∧
           (∀ b, get_nonce b s' = get_nonce b s) ∧
           is_Some (nonce_of s' !! c) ∧
           delegate_of s' = delegate_of s ∧ proposals s' = proposals s ∧
           verifier s' = verifier s).
Proof.
  split_and!.
  - intros x s' Hrun.
    destruct (add_voter_outcome a w s) as [[y Hy]|(c & _ & _ & Hret)];
      congruence.
  - apply add_voter_invalid.
  - intros [c Ha] Hw. rewrite (add_voter_run a c) by done.
    by rewrite decide_True.
  - intros c Ha Hw.
    destruct (add_voter_outcome a w s) as [[y Hy]|(c' & Ha' & _ & ->)].
    { rewrite (add_voter_run a c), decide_False in Hy by (done || lia).
      done. }
    assert (c' = c) as -> by congruence.
    eexists. split; [done|]. cbn. split_and!; try done.
    + unfold get_direct_weight. rewrite (checksum_Return a c) by done. cbn.
      by rewrite lookup_insert_eq.
    + intros b Hb. unfold get_direct_weight, checksum.
      destruct (to_checksum_address b) as [cb|]; [|done]. cbn.
      rewrite lookup_insert_ne; [done|congruence].
    + intros b. unfold get_nonce, checksum.
      destruct (to_checksum_address b) as [cb|]; [|done]. cbn.
      case_decide as Hin; [done|]. apply not_elem_of_dom in Hin.
      destruct (decide (c = cb)) as [->|];
        [by rewrite lookup_insert_eq, Hin | by rewrite lookup_insert_ne].
    + case_decide as Hin; [by apply elem_of_dom | by rewrite lookup_insert_eq].
Qed.


(** X3. No sequence of calls lowers a nonce: what [get_nonce] returns for an
    address never decreases. *)
Theorem nonce_never_decreases (cls : list call) s a k :
  get_nonce a s = Return k →
  ∃ k', get_nonce a (after_all cls s) = Return k' ∧ k ≤ k'.
Proof.
  unfold get_nonce, checksum.
  destruct (to_checksum_address a) as [c|]; [|done]. cbn.
  intros [= <-]. eexists. split; [done|]. apply nonce_after_all.
Qed.

(** X4. Replay protection.  Once a delegation of a delegator with nonce n
    has been accepted, every later [apply_delegation_signature] with the
    same nonce for that delegator, under whatever spelling with the same
    checksum form, raises and leaves the ledger as it is, whatever calls came
    in between and whatever the signature; when the deadline has not passed
    and the delegatee is a valid address, the exception is "invalid nonce for
    delegator". *)
Theorem replay_rejected now sig d e n dl s s' :
  apply_delegation_signature now sig d e n dl s = (Return (), s') →
  ∀ (cls : list call) now' sig' d' e' dl',
    to_checksum_address d' = to_checksum_address d →
    (∃ x, apply_delegation_signature now' sig' d' e' n dl' (after_all cls s')
            = (Raise x, after_all cls s')) ∧
    (now' ≤ dl' → is_Some (to_checksum_address e') →
       apply_delegation_signature now' sig' d' e' n dl' (after_all cls s')
         = (Raise (ValueError "invalid nonce for delegator"),
            after_all cls s')).
Proof.
  intros Hrun cls now' sig' d' e' dl' Hd'.
  destruct (apply_delegation_signature_outcome now sig d e n dl s)
    as [[x Hx]|(dc & ec & m' & Hd & _ & _ & Hn & _ & _ & Hret)];
    [congruence|].
  rewrite Hrun in Hret. injection Hret as ->. rewrite Hd in Hd'.
  pose proof (nonce_after_all cls
    (set_nonce_of (<[dc := n + 1]> (nonce_of s)) (set_delegate_of m' s)) dc)
    as Hmono.
  cbn in Hmono. rewrite lookup_insert_eq in Hmono. cbn in Hmono.
  set (s'' := after_all cls _) in *.
  assert (∀ ec', to_checksum_address e' = Some ec' → now' ≤ dl' →
            apply_delegation_signature now' sig' d' e' n dl' s''
              = (Raise (ValueError "invalid nonce for delegator"), s''))
    as Hnonce.
  { intros ec' He' Hnow.
    rewrite (apply_delegation_signature_run now' sig' d' e' n dl' dc ec')
      by done.
    rewrite decide_False by lia. rewrite decide_True; [done|lia]. }
  split.
  - destruct (decide (now' > dl')) as [Hexp|Hnow].
    { unfold apply_delegation_signature. rewrite decide_True by done.
      by eauto. }
    destruct (to_checksum_address e') as [ec'|] eqn:He'.
    + rewrite (Hnonce ec') by (done || lia). eauto.
    + destruct (apply_delegation_signature_invalid now' sig' d' e' n dl' s'')
        as [Hs [x Hx]]; [by auto|]. exists x.
      by rewrite (surjective_pairing (apply_delegation_signature _ _ _ _ _ _ _)),
        Hs, Hx.
  - intros Hnow [ec' He']. by apply (Hnonce ec').
Qed.

(** X5. A message built by [build_delegation_message] carries the checksum
    forms of the two addresses, the delegator's current nonce and the given
    deadline.  Applied before its deadline with a signature of its delegator,
    it passes the expiry, nonce and signer checks: it is accepted, with the
    delegator's nonce advanced by one, unless [_set_delegate] finds a cycle,
    in which case the ledger is as before. *)
Theorem build_delegation_message_applies d e dl s msg now sig :
  build_delegation_message d e dl s = Return msg →
  to_checksum_address d = Some (delegator msg) ∧
  to_checksum_address e = Some (delegatee msg) ∧
  get_nonce d s = Return (nonce msg) ∧ deadline msg = dl ∧
  (now ≤ dl →
   recover_delegator (verifier s) msg sig = Return (delegator msg) →
   apply_delegation_signature now sig (delegator msg) (delegatee msg)
     (nonce msg) (deadline msg) s
     = (Raise (ValueError "delegation would create a cycle"), s) ∨
   ∃ s', apply_delegation_signature now sig (delegator msg) (delegatee msg)
           (nonce msg) (deadline msg) s = (Return (), s') ∧
         get_nonce d s' = Return (nonce msg + 1)).
Proof.
  unfold build_delegation_message, checksum.
  destruct (to_checksum_address d) as [dc|] eqn:Hd; [|done].
  destruct (to_checksum_address e) as [ec|] eqn:He; [|done]. cbn.
  assert (to_checksum_address dc = Some dc) as Hdc by by eapply checksum_idem.
  assert (to_checksum_address ec = Some ec) as Hec by by eapply checksum_idem.
  rewrite (get_nonce_run dc dc) by done. cbn. intros [= <-]. cbn.
  rewrite (get_nonce_run d dc) by done. split_and!; try done.
  intros Hnow Hsig.
  rewrite (apply_delegation_signature_run now sig dc ec _ dl dc ec) by done.
  rewrite decide_False by lia. rewrite decide_False by (by intros ?).
  rewrite Hsig. rewrite decide_False by (by intros ?).
  rewrite (set_delegate_run dc ec dc ec) by done.
  destruct (decide (dc = ec)).
  - right. eexists. split; [done|]. rewrite (get_nonce_run d dc) by done.
    cbn. by rewrite lookup_insert_eq.
  - destruct (would_create_cycle_loop _ _ _ _); [by left|].
    right. eexists. split; [done|]. rewrite (get_nonce_run d dc) by done.
    cbn. by rewrite lookup_insert_eq.
Qed.

(** The power map, bucket by bucket: whatever the order of the passes, the
    bucket of [f] holds the weights of the voters whose final delegate is
    [f]. *)
Lemma power_map_bucket s (w : gmap string Z) f :
  (∀ a x, w !! a = Some x → to_checksum_address a = Some a) →
  ∃ p, map_fold (power_step s) (Return ∅) w = Return p ∧
       default 0 (p !! f) =
       sum_values
         (filter (λ kv, final_delegate (delegate_of s) kv.1 = f) w).
Proof.
  apply (map_fold_weak_ind
    (λ r w, (∀ a x, w !! a = Some x → to_checksum_address a = Some a) →
            ∃ p, r = Return p ∧
                 default 0 (p !! f) =
                 sum_values
                   (filter (λ kv, final_delegate (delegate_of s) kv.1 = f)
                      w))).
  - intros _. exists ∅. split; [done|]. by rewrite map_filter_empty.
  - clear w. intros a x w r Ha IH Hw.
    destruct IH as (p & -> & Hsum).
    { intros b y Hb. apply (Hw b y). rewrite lookup_insert_ne; [done|].
      congruence. }
    pose proof (Hw a x (lookup_insert_eq _ _ _)) as Hcs.
    rewrite power_step_Return, Hcs. cbn zeta.
    fold (final_delegate (delegate_of s) a).
    assert (filter (λ kv, final_delegate (delegate_of s) kv.1 = f) w !! a
            = None) as Hfa by (by rewrite map_lookup_filter_None; left).
    destruct (decide (final_delegate (delegate_of s) a = f)) as [Hf|Hf].
    + rewrite map_filter_insert_True by done.
      rewrite sum_values_insert_None by done.
      destruct (decide (x = 0)) as [->|Hx].
      * exists p. split; [done|]. lia.
      * eexists. split; [done|]. rewrite Hf, lookup_insert_eq. cbn. lia.
    + rewrite map_filter_insert_not by (cbn; congruence).
      destruct (decide (x = 0)) as [->|Hx].
      * by exists p.
      * eexists. split; [done|]. by rewrite lookup_insert_ne.
Qed.

(** The keys of the power map are final delegates of registered voters with
    a positive weight, and its values are positive. *)
Lemma power_map_entries s (w : gmap string Z) :
  (∀ a x, w !! a = Some x → to_checksum_address a = Some a ∧ 0 ≤ x) →
  ∀ p f y, map_fold (power_step s) (Return ∅) w = Return p →
           p !! f = Some y →
           0 < y ∧ ∃ v x, w !! v = Some x ∧ 0 < x ∧
                          final_delegate (delegate_of s) v = f.
Proof.
  apply (map_fold_weak_ind
    (λ r w,
       (∀ a x, w !! a = Some x → to_checksum_address a = Some a ∧ 0 ≤ x) →
       ∀ p f y, r = Return p → p !! f = Some y →
                0 < y ∧ ∃ v x, w !! v = Some x ∧ 0 < x ∧
                               final_delegate (delegate_of s) v = f)).
  - intros _ p f y [= <-]. by rewrite lookup_empty.
  - clear w. intros a x w r Ha IH Hw p f y.
    assert (∀ b z, w !! b = Some z →
                   to_checksum_address b = Some b ∧ 0 ≤ z) as Hw'.
    { intros b z Hb. apply (Hw b z). rewrite lookup_insert_ne; [done|].
      congruence. }
    specialize (IH Hw').
    destruct (Hw a x (lookup_insert_eq _ _ _)) as [Hcs Hx].
    destruct r as [q|?]; [|done].
    rewrite power_step_Return, Hcs. cbn zeta.
    fold (final_delegate (delegate_of s) a).
    assert (∀ g z, q !! g = Some z →
              0 < z ∧ ∃ v x', <[a := x]> w !! v = Some x' ∧ 0 < x' ∧
                              final_delegate (delegate_of s) v = g) as Hold.
    { intros g z Hg. destruct (IH q g z eq_refl Hg) as (Hz & v & x' & Hv & ?).
      split; [done|]. exists v, x'. split; [|done].
      rewrite lookup_insert_ne; [done|congruence]. }
    destruct (decide (x = 0)) as [->|Hx0]; intros [= <-]; [by apply Hold|].
    intros [[<- <-]|[_ Hf]]%lookup_insert_Some; [|by apply Hold].
    split.
    + destruct (q !! final_delegate (delegate_of s) a) as [z|] eqn:Hz; cbn;
        [|lia]. apply Hold in Hz as [Hz _]. lia.
    + exists a, x. rewrite lookup_insert_eq. split_and!; [done|lia|done].
Qed.

(** X6. In a reachable ledger the address [_resolve_final_delegate] returns
    is a checksum address without an outgoing edge, and resolving it again
    returns it again. *)
Theorem resolve_final_delegate_idempotent s a f :
  reachable s → _resolve_final_delegate a s = Return f →
  to_checksum_address f = Some f ∧ delegate_of s !! f = None ∧
  _resolve_final_delegate f s = Return f.
Proof.
  intros Hs. unfold _resolve_final_delegate at 1. unfold checksum.
  destruct (to_checksum_address a) as [c|] eqn:Ha; [|done]. cbn.
  intros [= <-]. fold (final_delegate (delegate_of s) c).
  destruct (reachable_final_delegate s c Hs) as [Hend Hcs];
    [by eapply checksum_idem|].
  split_and!; [done..|].
  rewrite (resolve_final_delegate_run _ _ _ Hcs).
  fold (final_delegate (delegate_of s) (final_delegate (delegate_of s) c)).
  by rewrite (final_delegate_self _ _ Hend).
Qed.

(** X7. In a reachable ledger the bucket of an address in the power map is
    the sum of the weights of the registered voters whose final delegate it
    is (0 when the address is not a key). *)
Theorem power_map_buckets s power f :
  reachable s → get_effective_voting_power_map s = Return power →
  default 0 (power !! f) = sum_values (delegators_of s f).
Proof.
  intros Hinv%reachable_inv Hpm.
  destruct (power_map_bucket s (voter_weight s) f) as (p & Hp & Hsum).
  { intros a x Ha. by eapply inv_voter_checksum. }
  unfold get_effective_voting_power_map in Hpm. rewrite Hp in Hpm.
  injection Hpm as <-. exact Hsum.
Qed.

(** X8. In a reachable ledger every entry of the power map is positive and
    belongs to a final holder: a checksum address without an outgoing edge
    that is the final delegate of a registered voter with a positive
    weight. *)
Theorem power_map_keys s power f y :
  reachable s → get_effective_voting_power_map s = Return power →
  power !! f = Some y →
  0 < y ∧ to_checksum_address f = Some f ∧ delegate_of s !! f = None ∧
  ∃ v x, voter_weight s !! v = Some x ∧ 0 < x ∧
         _resolve_final_delegate v s = Return f.
Proof.
  intros Hs Hpm Hf. pose proof (reachable_inv s Hs) as Hinv.
  destruct (power_map_entries s (voter_weight s)) with (p := power) (f := f)
    (y := y) as (Hy & v & x & Hv & Hx & Hfd); [|done..|].
  { intros a z Ha. split;
      [by eapply inv_voter_checksum | by eapply inv_weight_nonneg]. }
  pose proof (inv_voter_checksum s Hinv v x Hv) as Hvcs.
  destruct (reachable_final_delegate s v Hs Hvcs) as [Hend Hcs].
  rewrite Hfd in Hend, Hcs. split_and!; try done.
  exists v, x. split_and!; try done.
  by rewrite (resolve_final_delegate_run v v), <-Hfd.
Qed.

(** X9. In a reachable ledger [get_effective_voting_power] returns the same
    number for an address and for its final delegate: the sum of the weights
    of the registered voters who share that final delegate. *)
Theorem effective_power_of_final_delegate s a f :
  reachable s → _resolve_final_delegate a s = Return f →
  get_effective_voting_power a s = Return (sum_values (delegators_of s f)) ∧
  get_effective_voting_power f s = Return (sum_values (delegators_of s f)).
Proof.
  intros Hs Ha. pose proof (reachable_inv s Hs) as Hinv.
  destruct (power_map_bucket s (voter_weight s) f) as (p & Hp & Hsum).
  { intros b x Hb. by eapply inv_voter_checksum. }
  change (get_effective_voting_power_map s = Return p) in Hp.
  fold (delegators_of s f) in Hsum.
  assert (_resolve_final_delegate f s = Return f) as Hf.
  { revert Ha. unfold _resolve_final_delegate at 1. unfold checksum.
    destruct (to_checksum_address a) as [c|] eqn:Hc; [|done]. cbn.
    intros [= <-]. fold (final_delegate (delegate_of s) c).
    destruct (reachable_final_delegate s c Hs) as [Hend Hcs];
      [by eapply checksum_idem|].
    rewrite (resolve_final_delegate_run _ _ _ Hcs).
    fold (final_delegate (delegate_of s) (final_delegate (delegate_of s) c)).
    by rewrite (final_delegate_self _ _ Hend). }
  unfold get_effective_voting_power. rewrite Ha, Hf, Hp. cbn.
  by rewrite Hsum.
Qed.

(** X10. [vote] checks, in this order, that the proposal exists ("unknown
    proposal"), that the choice is yes, no or abstain ("invalid choice"),
    that the closing time has not passed ("voting closed") and that the
    voter is a valid address; whenever it raises, for whatever reason, the
    ledger is as before. *)
Theorem vote_rejections now pid voter choice s :
  (∀ x s', vote now pid voter choice s = (Raise x, s') → s' = s) ∧
  (proposals s !! pid = None →
     vote now pid voter choice s = (Raise (ValueError "unknown proposal"), s)) ∧
  (is_Some (proposals s !! pid) → choice ∉ choices →
     vote now pid voter choice s = (Raise (ValueError "invalid choice"), s)) ∧
  (∀ prop, proposals s !! pid = Some prop → choice ∈ choices →
     (now > closes_at prop →
        vote now pid voter choice s = (Raise (ValueError "voting closed"), s)) ∧
     (now ≤ closes_at prop → to_checksum_address voter = None →
        vote now pid voter choice s = (Raise AddressError, s))).
Proof.
  split_and!.
  - intros x s' Hrun.
    destruct (vote_outcome now pid voter choice s)
      as [[y Hy]|(? & ? & ? & ? & ? & _ & _ & _ & _ & _ & _ & _ & _ & _ & _
                  & Hret)]; congruence.
  - intros Hp. unfold vote. run. by rewrite Hp.
  - intros [prop Hp] Hc. unfold vote. run. rewrite Hp.
    by rewrite decide_True.
  - intros prop Hp Hc. split.
    + intros Hnow. unfold vote. run. rewrite Hp.
      rewrite decide_False by (by intros ?). by rewrite decide_True.
    + intros Hnow Hv. unfold vote. run. rewrite Hp.
      rewrite decide_False by (by intros ?). rewrite decide_False by lia.
      by rewrite (checksum_Raise _ Hv).
Qed.

(** X11. Whatever its outcome, [vote] leaves the verifier, the voter
    weights, the edges, the nonces and every other proposal alone, and it
    creates no proposal; of the proposal voted on it keeps the title, the
    description, the closing time and the tallies of the other choices, and
    it removes nobody from the voted-set. *)
Theorem vote_frame now pid voter choice s :
  verifier (vote now pid voter choice s).2 = verifier s ∧
  voter_weight (vote now pid voter choice s).2 = voter_weight s ∧
  delegate_of (vote now pid voter choice s).2 = delegate_of s ∧
  nonce_of (vote now pid voter choice s).2 = nonce_of s ∧
  (∀ pid', pid' ≠ pid →
     proposals (vote now pid voter choice s).2 !! pid' = proposals s !! pid') ∧
  (proposals s !! pid = None →
     proposals (vote now pid voter choice s).2 !! pid = None) ∧
  (∀ prop, proposals s !! pid = Some prop →
     ∃ prop', proposals (vote now pid voter choice s).2 !! pid = Some prop' ∧
              title prop' = title prop ∧
              description prop' = description prop ∧
              closes_at prop' = closes_at prop ∧
              (∀ c, c ≠ choice → tallies prop' !! c = tallies prop !! c) ∧
              voted prop ⊆ voted prop').
Proof.
  destruct (vote_outcome now pid voter choice s)
    as [[y ->]|(prop & tally & vc & pm & w & Hp & _ & _ & _ & _ & _ & _ & _
                & _ & _ & ->)]; cbn.
  - split_and!; try done. intros prop Hp. exists prop. by split_and!.
  - split_and!; try done.
    + intros pid' Hne. by rewrite lookup_insert_ne.
    + congruence.
    + intros prop' Hp'. assert (prop' = prop) as -> by congruence.
      rewrite lookup_insert_eq. eexists. split; [done|]. cbn.
      split_and!; try done; [|set_solver].
      intros c Hc. by rewrite lookup_insert_ne.
Qed.

(** X12. When [vote] returns a weight and a snapshot, the weight is positive
    and is the effective voting power of the voter, the snapshot is the old
    tallies with the weight added to the tally of the choice (so the tallies
    together grow by exactly that weight), [get_results] then returns the
    snapshot, and the voter is in the voted-set. *)
Theorem vote_then_results now pid voter choice s w snapshot s' :
  vote now pid voter choice s = (Return (w, snapshot), s') →
  0 < w ∧ get_effective_voting_power voter s = Return w ∧
  get_results pid s' = Return snapshot ∧
  ∃ prop prop' vc tally,
    proposals s !! pid = Some prop ∧ proposals s' !! pid = Some prop' ∧
    to_checksum_address voter = Some vc ∧ vc ∈ voted prop' ∧
    tallies prop !! choice = Some tally ∧
    snapshot = <[choice := tally + w]> (tallies prop) ∧
    sum_values snapshot = sum_values (tallies prop) + w.
Proof.
  intros Hrun.
  destruct (vote_outcome now pid voter choice s)
    as [[y Hy]|(prop & tally & vc & pm & w' & Hp & _ & _ & Hv & Hf & _ & Hpm
                & Hw' & Hw & Htally & Hret)]; [congruence|].
  rewrite Hrun in Hret. injection Hret as -> -> ->.
  split_and!; [done| |by unfold get_results; cbn; rewrite lookup_insert_eq|].
  - unfold get_effective_voting_power.
    rewrite (resolve_final_delegate_run voter vc) by done.
    fold (final_delegate (delegate_of s) vc). rewrite Hf, Hpm. cbn.
    by rewrite Hw'.
  - exists prop, (cast choice tally w' vc prop), vc, tally.
    split_and!; try done.
    + cbn. by rewrite lookup_insert_eq.
    + cbn. set_solver.
    + rewrite sum_values_insert, Htally. cbn. lia.
Qed.

(** X13. [is_open] raises only for an unknown proposal, and then [vote] and
    [get_results] raise "unknown proposal" as well; when [is_open] returns
    False, every [vote] at that time raises and leaves the ledger as it is,
    with "voting closed" when the choice is valid. *)
Theorem closed_proposal_rejects_votes now pid s :
  (∀ x, is_open now pid s = Raise x →
     x = ValueError "unknown proposal" ∧
     get_results pid s = Raise (ValueError "unknown proposal") ∧
     ∀ voter choice,
       vote now pid voter choice s
         = (Raise (ValueError "unknown proposal"), s)) ∧
  (is_open now pid s = Return false →
     ∀ voter choice,
       ∃ x, vote now pid voter choice s = (Raise x, s) ∧
            (choice ∈ choices → x = ValueError "voting closed")).
Proof.
  unfold is_open, get_results.
  destruct (proposals s !! pid) as [prop|] eqn:Hp; split.
  - done.
  - cbn. intros [= Hclosed%bool_decide_eq_false] voter choice.
    unfold vote. run. rewrite Hp.
    destruct (decide (choice ∉ choices)) as [Hc|Hc];
      [eexists; split; [done|]; by intros ?|].
    rewrite decide_True by lia. eauto.
  - intros x [= <-]. split_and!; [done..|]. intros voter choice.
    unfold vote. run. by rewrite Hp.
  - done.
Qed.

End FurtherProperties.

(** X14. A proposal that [create_proposal] has just stored is open at the
    time of its creation and up to and including its closing time, closed
    after it, and its results are 0 for yes, no and abstain. *)
Theorem created_proposal_is_open now pid t dsc cl s s' :
  create_proposal now pid t dsc cl s = (Return (), s') →
  now < cl ∧ is_open now pid s' = Return true ∧
  (∀ t', is_open t' pid s' = Return (bool_decide (t' ≤ cl))) ∧
  get_results pid s' =
    Return {["yes" := 0; "no" := 0; "abstain" := 0]}.
Proof.
  rewrite create_proposal_run. repeat case_decide; try done.
  intros [= <-]. unfold is_open, get_results. cbn.
  rewrite lookup_insert_eq. cbn. split_and!; try done; [lia|].
  f_equal. apply bool_decide_eq_true. lia.
Qed.

Section FurtherProperties2.
Context {E : External} {EL : ExternalLaws E}.
Implicit Types (s : Ledger) (a c d e f : string) (m : gmap string string).

(** X15. In a reachable ledger every proposal has exactly the tallies yes, no
    and abstain, none of them negative; they are all 0 exactly as long as
    nobody has voted; and the voted-set holds checksum addresses. *)
Theorem reachable_proposals s pid p :
  reachable s → proposals s !! pid = Some p →
  get_results pid s = Return (tallies p) ∧
  dom (tallies p) = {["yes"; "no"; "abstain"]} ∧
  (∀ c t, tallies p !! c = Some t → 0 ≤ t) ∧
  (voted p = ∅ ↔ sum_values (tallies p) = 0) ∧
  (∀ v, v ∈ voted p → to_checksum_address v = Some v).
Proof.
  intros Hs Hp.
  destruct (wf_proposals s (reachable_wf s Hs) pid p Hp)
    as [Hdom Hnn Hempty Hcs].
  split_and!; try done. unfold get_results. by rewrite Hp.
Qed.

(** One call keeps every proposal, with its title, description and closing
    time; the voted-set and the tallies only grow. *)
Lemma proposal_after (cl : call) s pid p :
  proposals s !! pid = Some p →
  ∃ p', proposals (after cl s) !! pid = Some p' ∧
        title p' = title p ∧ description p' = description p ∧
        closes_at p' = closes_at p ∧ voted p ⊆ voted p' ∧
        ∀ c t, tallies p !! c = Some t →
               ∃ t', tallies p' !! c = Some t' ∧ t ≤ t'.
Proof.
  intros Hp.
  assert (∃ p', Some p = Some p' ∧
        title p' = title p ∧ description p' = description p ∧
        closes_at p' = closes_at p ∧ voted p ⊆ voted p' ∧
        ∀ c t, tallies p !! c = Some t →
               ∃ t', tallies p' !! c = Some t' ∧ t ≤ t') as Hsame
    by (exists p; split_and!; by eauto with lia).
  pose proof (after_proposals cl s) as Hfr.
  destruct cl as [a w|now sig d e n dl|d e|now pid' t dsc cl|now pid' v ch];
    try (rewrite Hfr, Hp; exact Hsame); clear Hfr; cbn.
  - rewrite create_proposal_run.
    destruct (decide (pid' ∈ _)) as [|Hnew%not_elem_of_dom];
      [cbn; by rewrite Hp|].
    case_decide; cbn; [by rewrite Hp|].
    rewrite lookup_insert_ne, Hp; [done|congruence].
  - destruct (vote_outcome now pid' v ch s)
      as [[y ->]|(prop & tally & vc & pm & w & Hp' & _ & _ & _ & _ & _ & _ & _
                  & Hw & Htally & ->)]; [cbn; by rewrite Hp|].
    cbn. destruct (decide (pid' = pid)) as [->|Hne];
      [|by rewrite lookup_insert_ne, Hp].
    rewrite lookup_insert_eq. assert (prop = p) as -> by congruence.
    eexists. split; [done|]. cbn. split_and!; try done; [set_solver|].
    intros c t Hc. destruct (decide (ch = c)) as [->|Hne].
    + rewrite lookup_insert_eq. eexists. split; [done|].
      assert (t = tally) by congruence. lia.
    + rewrite lookup_insert_ne by done. eauto with lia.
Qed.

(** X16. Proposals are never deleted or replaced: through any sequence of
    calls a proposal keeps its title, description and closing time, nobody
    leaves its voted-set and none of its tallies decreases. *)
Theorem proposals_persist (cls : list call) s pid p :
  proposals s !! pid = Some p →
  ∃ p', proposals (after_all cls s) !! pid = Some p' ∧
        title p' = title p ∧ description p' = description p ∧
        closes_at p' = closes_at p ∧ voted p ⊆ voted p' ∧
        ∀ c t, tallies p !! c = Some t →
               ∃ t', tallies p' !! c = Some t' ∧ t ≤ t'.
Proof.
  revert s p. induction cls as [|cl cls IH]; intros s p Hp.
  { exists p. split_and!; by eauto with lia. }
  destruct (proposal_after cl s pid p Hp)
    as (p1 & Hp1 & Ht1 & Hd1 & Hc1 & Hv1 & Htal1).
  destruct (IH (after cl s) p1 Hp1) as (p2 & Hp2 & Ht2 & Hd2 & Hc2 & Hv2 & Htal2).
  exists p2. cbn. split_and!; try congruence; try set_solver.
  intros c t Hc. destruct (Htal1 c t Hc) as (t1 & Hc1' & ?).
  destruct (Htal2 c t1 Hc1') as (t2 & ? & ?). exists t2. split; [done|lia].
Qed.

(** X17. When [_set_delegate] writes an edge from a delegator to a different
    delegatee, the final delegate of the delegatee stays what it was and
    becomes the final delegate of the delegator. *)
Theorem delegation_joins_chains d e dc ec s s' :
  to_checksum_address d = Some dc → to_checksum_address e = Some ec →
  dc ≠ ec → _set_delegate d e s = (Return (), s') →
  _resolve_final_delegate e s' = _resolve_final_delegate e s ∧
  _resolve_final_delegate d s' = _resolve_final_delegate e s.
Proof.
  intros Hd He Hne. rewrite (set_delegate_run d e dc ec) by done.
  rewrite decide_False by done.
  destruct (would_create_cycle_loop _ _ _ _) eqn:Hloop; [done|].
  intros [= <-].
  destruct (insert_keeps_chain (delegate_of s) dc ec Hne Hloop)
    as (n & t & Hn & Ht & Hn' & Ht').
  rewrite !(resolve_final_delegate_run e ec),
    (resolve_final_delegate_run d dc) by done. cbn.
  fold (final_delegate (delegate_of s) ec).
  fold (final_delegate (<[dc := ec]> (delegate_of s)) ec).
  fold (final_delegate (<[dc := ec]> (delegate_of s)) dc).
  rewrite (final_delegate_unique _ ec n t Hn Ht).
  rewrite (final_delegate_unique _ ec n t Hn' Ht').
  rewrite (final_delegate_unique _ dc (S n) t); [done| |done].
  simpl. by rewrite lookup_insert_eq.
Qed.

(** X18. Delegating and then delegating to oneself is a round trip: when the
    delegator had no edge, the second call gives back the ledger from before
    the first. *)
Theorem self_delegation_undoes d e dc ec s s1 :
  to_checksum_address d = Some dc → to_checksum_address e = Some ec →
  delegate_of s !! dc = None →
  _set_delegate d e s = (Return (), s1) →
  _set_delegate d d s1 = (Return (), s).
Proof.
  intros Hd He Hnone. rewrite (set_delegate_run d e dc ec) by done.
  rewrite (set_delegate_run d d dc dc) by done.
  rewrite (decide_True (P := dc = dc)) by done.
  destruct (decide (dc = ec)).
  - intros [= <-]. cbn. rewrite !delete_id by (by rewrite ?delete_id).
    by destruct s.
  - destruct (would_create_cycle_loop _ _ _ _); [done|]. intros [= <-]. cbn.
    rewrite delete_insert_id by done. by destruct s.
Qed.

(** X19. In a reachable ledger every key is a checksum address: a registered
    voter has a weight that is not negative and a nonce entry, every nonce
    is at least 0, and both ends of a delegation edge are checksum addresses
    and differ. *)
Theorem reachable_keys s :
  reachable s →
  (∀ a w, voter_weight s !! a = Some w →
     to_checksum_address a = Some a ∧ 0 ≤ w ∧ is_Some (nonce_of s !! a)) ∧
  (∀ a n, nonce_of s !! a = Some n →
     to_checksum_address a = Some a ∧ 0 ≤ n) ∧
  (∀ a b, delegate_of s !! a = Some b →
     to_checksum_address a = Some a ∧ to_checksum_address b = Some b ∧ a ≠ b).
Proof.
  intros Hs. destruct (reachable_inv s Hs) as [Hcs Hw Hterm _].
  destruct (reachable_wf s Hs) as [Hreg Hnonce Hedges _].
  split_and!.
  - intros a w Ha. split_and!; [by eapply Hcs | by eapply Hw | by eapply Hreg].
  - done.
  - intros a b Hab. destruct (Hedges a b Hab) as [Ha Hb].
    split_and!; [done..|]. intros ->.
    apply (terminating_acyclic _ Hterm b 0%nat). simpl. by rewrite Hab.
Qed.

(** X20. In a reachable ledger [_set_delegate] refuses a delegation to a
    different address exactly when there is a chain of edges from the
    delegatee to the delegator, that is, exactly when the new edge would
    close a cycle; in every other case it returns. *)
Theorem cycle_rejection_exact d e dc ec s :
  reachable s →
  to_checksum_address d = Some dc → to_checksum_address e = Some ec →
  dc ≠ ec →
  ((∃ n, follow (delegate_of s) n ec = Some dc) →
     _set_delegate d e s =
       (Raise (ValueError "delegation would create a cycle"), s)) ∧
  ((∀ n, follow (delegate_of s) n ec ≠ Some dc) →
     _set_delegate d e s =
       (Return (), set_delegate_of (<[dc := ec]> (delegate_of s)) s)).
Proof.
  intros Hs Hd He Hne. rewrite (set_delegate_run d e dc ec) by done.
  rewrite decide_False by done. split.
  - intros [[|n] Hn]; [simpl in Hn; congruence|].
    assert (walk_hits (delegate_of s) dc ec) as Hhits by (left; eauto).
    apply would_create_cycle_loop_hits in Hhits. by rewrite Hhits.
  - intros Hfree.
    destruct (would_create_cycle_loop _ _ _ _) eqn:Hloop; [exfalso|done].
    apply would_create_cycle_loop_hits in Hloop
      as [[n Hn]|(i & j & x & Hij & Hi & Hj)].
    + by apply (Hfree (S n)).
    + destruct (inv_terminating s (reachable_inv s Hs) ec)
        as (n & t & Hn & Ht).
      by apply (follow_end_no_revisit (delegate_of s) n ec t i j x).
Qed.

(** One call leaves the verifier alone. *)
Lemma verifier_after (cl : call) s : verifier (after cl s) = verifier s.
Proof.
  destruct cl as [a w|now sig d e n dl|d e|now pid t dsc cl|now pid v ch];
    cbn.
  - by destruct (add_voter_outcome a w s) as [[x ->]|(c & _ & _ & ->)].
  - by destruct (apply_delegation_signature_outcome now sig d e n dl s)
      as [[x ->]|(? & ? & ? & _ & _ & _ & _ & _ & _ & ->)].
  - by destruct (set_delegate_frame d e s _ _ (surjective_pairing _))
      as (-> & _).
  - rewrite create_proposal_run. by repeat case_decide.
  - by destruct (vote_outcome now pid v ch s)
      as [[x ->]|(? & ? & ? & ? & ? & _ & _ & _ & _ & _ & _ & _ & _ & _ & _
                  & ->)].
Qed.

Lemma verifier_after_all (cls : list call) s :
  verifier (after_all cls s) = verifier s.
Proof.
  revert s. induction cls as [|cl cls IH]; intros s; [done|].
  change (verifier (after_all cls (after cl s)) = verifier s).
  by rewrite IH, verifier_after.
Qed.

(** X21. The domain of the signatures is fixed when the ledger is made:
    the constructor raises exactly when the verifying contract is not a valid
    address, and otherwise the verifier holds the chain id and the checksum
    form of the contract, through every later call. *)
Theorem verifier_fixed chain contract :
  (to_checksum_address contract = None →
     new_ledger chain contract = Raise AddressError) ∧
  (∀ c, to_checksum_address contract = Some c →
     ∃ s, new_ledger chain contract = Return s ∧
          ∀ cls : list call,
            verifier (after_all cls s) =
              {| chain_id := chain; verifying_contract := c |}).
Proof.
  unfold new_ledger, new_verifier, checksum. split.
  - by intros ->.
  - intros c ->. eexists. split; [reflexivity|]. intros cls.
    apply (verifier_after_all cls).
Qed.

End FurtherProperties2.

(** * The model run on the example instance *)

Lemma example_laws : ExternalLaws example_external.
Proof.
  intros a c. cbn. destruct (String.prefix "0x" a) eqn:Ha; [|done].
  intros [= <-]. by rewrite Ha.
Qed.

Lemma example_new_ledger :
  @new_ledger example_external 1 "0xC0ffee" = Return example_new.
Proof. reflexivity. Qed.

Lemma example_delegation_accepted :
  @apply_delegation_signature example_external 10 alice alice bob 0 20
    example_registered = (Return (), example_delegated).
Proof. vm_compute. reflexivity. Qed.

Lemma example_delegated_reachable :
  @reachable example_external example_delegated.
Proof.
  apply (@reachable_call example_external).
  apply (@reachable_call example_external (AddVoter bob 50)).
  apply (@reachable_call example_external (AddVoter alice 100)).
  apply (@reachable_new example_external 1 "0xC0ffee"). reflexivity.
Qed.

Lemma example_proposed_reachable :
  @reachable example_external example_proposed.
Proof.
  apply (@reachable_call example_external), example_delegated_reachable.
Qed.

(** With Alice delegating to Bob, a delegation from Bob to Alice is refused
    and the edges stay acyclic. *)
Lemma set_delegate_acyclic_witness :
  acyclic (delegate_of example_delegated) ∧
  @_set_delegate example_external bob alice example_delegated =
    (Raise (ValueError "delegation would create a cycle"), example_delegated).
Proof.
  destruct (@set_delegate_acyclic example_external example_laws)
    as [Hreach Hset].
  split; [apply Hreach, example_delegated_reachable|].
  apply (Hset example_delegated bob alice bob alice);
    [reflexivity | reflexivity | discriminate |].
  left. exists 0%nat. vm_compute. reflexivity.
Defined.

(** The same refusal through [apply_delegation_signature], signed by Bob. *)
Lemma apply_delegation_signature_atomic_witness :
  @apply_delegation_signature example_external 12 bob bob alice 0 20
    example_delegated =
    (Raise (ValueError "delegation would create a cycle"), example_delegated).
Proof.
  destruct (@apply_delegation_signature_atomic example_external example_laws
              12 bob bob alice 0 20 example_delegated) as (_ & _ & Hchecks & _).
  destruct (Hchecks bob alice) as [_ Hnonce];
    [reflexivity | reflexivity | lia |].
  destruct Hnonce as (_ & _ & Hsigned); [vm_compute; reflexivity |].
  destruct Hsigned as (Hcycle & _); [vm_compute; reflexivity |].
  apply Hcycle; [discriminate |].
  left. exists 0%nat. vm_compute. reflexivity.
Defined.

Lemma effective_power_after_delegation_witness :
  @get_effective_voting_power example_external bob example_delegated
    = Return 150 ∧
  @get_effective_voting_power example_external alice example_delegated
    = Return 150.
Proof.
  apply (@effective_power_after_delegation example_external example_laws
           1 "0xC0ffee" example_new alice bob alice bob 10 alice 0 20);
    [reflexivity | reflexivity | reflexivity | discriminate |].
  exact example_delegation_accepted.
Defined.

(** C3 as the specification states it fails: in the ledger of its scenario
    the effective power of the delegator A is 150, not 0. *)
Lemma effective_power_of_delegator_not_zero :
  @new_ledger example_external 1 "0xC0ffee" = Return example_new ∧
  @apply_delegation_signature example_external 10 alice alice bob 0 20
    (@after_all example_external [AddVoter alice 100; AddVoter bob 50]
       example_new) = (Return (), example_delegated) ∧
  ¬ (@get_effective_voting_power example_external bob example_delegated
       = Return 150 ∧
     @get_effective_voting_power example_external alice example_delegated
       = Return 0).
Proof.
  split_and!; [reflexivity | exact example_delegation_accepted |].
  intros [_ Halice]. vm_compute in Halice. discriminate Halice.
Qed.

Lemma power_map_conservation_witness :
  ∃ power,
    @get_effective_voting_power_map example_external example_delegated
      = Return power ∧
    sum_values power = sum_values (positive_entries (voter_weight example_delegated)).
Proof.
  apply (@power_map_conservation example_external example_laws).
  exact example_delegated_reachable.
Defined.

Lemma apply_delegation_signature_nonce_witness :
  ∃ k, @get_nonce example_external alice example_registered = Return k ∧
       @get_nonce example_external alice example_delegated = Return (k + 1) ∧
       (∀ a, @to_checksum_address example_external a ≠
               @to_checksum_address example_external alice →
             @get_nonce example_external a example_delegated =
             @get_nonce example_external a example_registered) ∧
       voter_weight example_delegated = voter_weight example_registered ∧
       proposals example_delegated = proposals example_registered.
Proof.
  apply (@apply_delegation_signature_nonce example_external example_laws
           10 alice alice bob 0 20).
  exact example_delegation_accepted.
Defined.

Lemma set_delegate_self_witness :
  @_set_delegate example_external alice alice example_delegated =
    (Return (),
     set_delegate_of (delete alice (delegate_of example_delegated))
       example_delegated) ∧
  (∀ a, a ≠ alice →
     delete alice (delegate_of example_delegated) !! a =
     delegate_of example_delegated !! a) ∧
  delete alice (delegate_of example_delegated) !! alice = None ∧
  @_resolve_final_delegate example_external alice
    (set_delegate_of (delete alice (delegate_of example_delegated))
       example_delegated) = Return alice.
Proof.
  apply (@set_delegate_self example_external example_laws). reflexivity.
Defined.

Lemma resolve_final_delegate_terminates_witness :
  ∃ r seen n,
    resolve_loop (delegate_of example_delegated) ∅ alice = (r, seen) ∧
    @_resolve_final_delegate example_external alice example_delegated
      = Return r ∧
    size seen = n ∧ (n ≤ size (delegate_of example_delegated))%nat ∧
    follow (delegate_of example_delegated) n alice = Some r ∧
    (∀ i x, (i < n)%nat →
            follow (delegate_of example_delegated) i alice = Some x →
            is_Some (delegate_of example_delegated !! x)) ∧
    (delegate_of example_delegated !! r = None ∨
     ∃ i, (i < n)%nat ∧
          follow (delegate_of example_delegated) i alice = Some r) ∧
    (@reachable example_external example_delegated →
     delegate_of example_delegated !! r = None).
Proof.
  apply (@resolve_final_delegate_terminates example_external example_laws).
  reflexivity.
Defined.

(** Bob, the final holder of Alice's and his own weight, votes on "P". *)
Lemma vote_cases_witness :
  proposals example_proposed !! "P" = Some (new_proposal "title" "description" 30) ∧
  ∃ f,
    @_resolve_final_delegate example_external bob example_proposed = Return f ∧
    (∀ x s', @vote example_external 12 "P" bob "yes" example_proposed
               = (Raise x, s') → s' = example_proposed) ∧
    ((@vote example_external 12 "P" bob "yes" example_proposed).1 =
       Raise (ValueError "delegated voters cannot cast a direct vote")
     ↔ f ≠ bob) ∧
    (f = bob →
     ∃ power,
       @get_effective_voting_power example_external f example_proposed
         = Return power ∧
       ((@vote example_external 12 "P" bob "yes" example_proposed).1 =
          Raise (ValueError "already voted for this proposal")
        ↔ f ∈ (∅ : gset string)) ∧
       ((@vote example_external 12 "P" bob "yes" example_proposed).1 =
          Raise (ValueError "no voting power")
        ↔ (f ∉ (∅ : gset string)) ∧ power ≤ 0) ∧
       (f ∉ (∅ : gset string) → 0 < power →
          ∃ tally,
            tallies (new_proposal "title" "description" 30) !! "yes"
              = Some tally ∧
            @vote example_external 12 "P" bob "yes" example_proposed =
              (Return (power,
                       <["yes" := tally + power]>
                         (tallies (new_proposal "title" "description" 30))),
               set_proposals
                 (<["P" := {| title := "title"; description := "description";
                              closes_at := 30;
                              tallies :=
                                <["yes" := tally + power]>
                                  (tallies
                                     (new_proposal "title" "description" 30));
                              voted := {[f]} ∪ ∅ |}]>
                    (proposals example_proposed)) example_proposed) ∧
            ∀ cls now' voter' choice',
              @to_checksum_address example_external voter' = Some f →
              ∃ x, (@vote example_external now' "P" voter' choice'
                      (@after_all example_external cls
                         (@vote example_external 12 "P" bob "yes"
                            example_proposed).2)).1 = Raise x)).
Proof.
  assert (proposals example_proposed !! "P"
          = Some (new_proposal "title" "description" 30)) as Hprop
    by (vm_compute; reflexivity).
  split; [exact Hprop|].
  apply (@vote_cases example_external example_laws 12 "P" bob bob "yes"
           (new_proposal "title" "description" 30) example_proposed).
  - exact example_proposed_reachable.
  - exact Hprop.
  - unfold choices. apply list_elem_of_here.
  - simpl. lia.
  - reflexivity.
Defined.

(** C6 as the specification states it fails in two places.  In
    [example_zeroed], a reachable ledger in which "P" is open, Bob is his own
    final delegate and his effective power is 0, Bob's vote does not raise
    "no voting power" but "already voted for this proposal".  And a weight is
    counted more than once: after Bob has voted with 150, Alice's 100 among
    them, Alice takes her delegation back and her own vote adds 100 again, so
    the tally of yes is 250 while all the weights together are 150. *)
Lemma vote_weight_counted_twice :
  (@reachable example_external example_zeroed ∧
   is_open 13 "P" example_zeroed = Return true ∧
   @_resolve_final_delegate example_external bob example_zeroed = Return bob ∧
   @get_effective_voting_power example_external bob example_zeroed = Return 0 ∧
   (@vote example_external 13 "P" bob "yes" example_zeroed).1
     = Raise (ValueError "already voted for this proposal") ∧
   ¬ ((@vote example_external 13 "P" bob "yes" example_zeroed).1
        = Raise (ValueError "no voting power") ↔ 0 ≤ 0)) ∧
  (@reachable example_external example_undelegated ∧
   (@vote example_external 12 "P" bob "yes" example_proposed).1
     = Return (150, {["yes" := 150; "no" := 0; "abstain" := 0]}) ∧
   sum_values (voter_weight example_proposed) = 150 ∧
   sum_values (voter_weight example_undelegated) = 150 ∧
   (@vote example_external 13 "P" alice "yes" example_undelegated).1
     = Return (100, {["yes" := 250; "no" := 0; "abstain" := 0]})).
Proof.
  assert (@reachable example_external example_undelegated) as Hreach.
  { apply (@reachable_call example_external).
    apply (@reachable_call example_external), example_proposed_reachable. }
  split; split_and!; try (vm_compute; reflexivity); try done.
  - by apply (@reachable_call example_external).
  - intros [_ Hpower]. specialize (Hpower (Z.le_refl 0)).
    vm_compute in Hpower. discriminate Hpower.
Qed.

(** Bob, never registered, receives Alice's weight and votes with it. *)
Lemma unregistered_delegatee_votes_witness :
  (∃ s', @apply_delegation_signature example_external 10 alice alice bob 0 20
           example_new = (Return (), s') ∧
         voter_weight s' = ∅) ∧
  ∃ s2 s3 s4,
    voter_weight (@after example_external (AddVoter alice 100) example_new)
      !! bob = None ∧
    @apply_delegation_signature example_external 10 alice alice bob 0 20
      (@after example_external (AddVoter alice 100) example_new)
      = (Return (), s2) ∧
    voter_weight s2 !! bob = None ∧
    @get_effective_voting_power_map example_external s2
      = Return {[bob := 100]} ∧
    @create_proposal 11 "P" "title" "description" 30 s2 = (Return (), s3) ∧
    @vote example_external 12 "P" bob "yes" s3 =
      (Return (100, {["yes" := 100; "no" := 0; "abstain" := 0]}), s4).
Proof.
  apply (@unregistered_delegatee_votes example_external example_laws
           1 "0xC0ffee" example_new alice bob alice bob 100 10 alice 20
           "P" "title" "description" 30 11 12);
    [reflexivity | reflexivity | reflexivity | discriminate | lia | lia
    | vm_compute; reflexivity | lia | lia].
Defined.

(** ** The further properties on the example instance *)


Lemma nonce_never_decreases_witness :
  ∃ k', @get_nonce example_external alice
          (@after_all example_external
             [ApplyDelegationSignature 10 alice alice bob 0 20]
             example_registered) = Return k' ∧ 0 ≤ k'.
Proof.
  apply (@nonce_never_decreases example_external example_laws). reflexivity.
Defined.

(** Alice's accepted delegation cannot be applied again, here after she has
    been registered anew. *)
Lemma replay_rejected_witness :
  (∃ x, @apply_delegation_signature example_external 12 alice alice bob 0 20
          (@after_all example_external [AddVoter alice 5] example_delegated)
        = (Raise x,
           @after_all example_external [AddVoter alice 5] example_delegated)) ∧
  (12 ≤ 20 → is_Some (@to_checksum_address example_external bob) →
     @apply_delegation_signature example_external 12 alice alice bob 0 20
       (@after_all example_external [AddVoter alice 5] example_delegated)
     = (Raise (ValueError "invalid nonce for delegator"),
        @after_all example_external [AddVoter alice 5] example_delegated)).
Proof.
  apply (@replay_rejected example_external example_laws
           10 alice alice bob 0 20 example_registered example_delegated
           example_delegation_accepted [AddVoter alice 5] 12 alice alice bob
           20).
  reflexivity.
Defined.

Lemma build_delegation_message_applies_witness :
  @to_checksum_address example_external alice = Some alice ∧
  @to_checksum_address example_external bob = Some bob ∧
  @get_nonce example_external alice example_registered = Return 0 ∧
  20 = 20 ∧
  (10 ≤ 20 →
   @recover_delegator example_external (verifier example_registered)
     {| delegator := alice; delegatee := bob; nonce := 0; deadline := 20 |}
     alice = Return alice →
   @apply_delegation_signature example_external 10 alice alice bob 0 20
     example_registered
     = (Raise (ValueError "delegation would create a cycle"),
        example_registered) ∨
   ∃ s', @apply_delegation_signature example_external 10 alice alice bob 0 20
           example_registered = (Return (), s') ∧
         @get_nonce example_external alice s' = Return (0 + 1)).
Proof.
  apply (@build_delegation_message_applies example_external example_laws
           alice bob 20 example_registered
           {| delegator := alice; delegatee := bob; nonce := 0;
              deadline := 20 |} 10 alice).
  vm_compute. reflexivity.
Defined.

Lemma resolve_final_delegate_idempotent_witness :
  @to_checksum_address example_external bob = Some bob ∧
  delegate_of example_delegated !! bob = None ∧
  @_resolve_final_delegate example_external bob example_delegated = Return bob.
Proof.
  apply (@resolve_final_delegate_idempotent example_external example_laws
           example_delegated alice bob);
    [exact example_delegated_reachable | vm_compute; reflexivity].
Defined.

Lemma example_power_map :
  @get_effective_voting_power_map example_external example_delegated
  = Return {[bob := 150]}.
Proof. vm_compute. reflexivity. Qed.

Lemma power_map_buckets_witness :
  default 0 (({[bob := 150]} : gmap string Z) !! bob)
  = sum_values (delegators_of example_delegated bob).
Proof.
  apply (@power_map_buckets example_external example_laws);
    [exact example_delegated_reachable | exact example_power_map].
Defined.

Lemma power_map_keys_witness :
  0 < 150 ∧ @to_checksum_address example_external bob = Some bob ∧
  delegate_of example_delegated !! bob = None ∧
  ∃ v x, voter_weight example_delegated !! v = Some x ∧ 0 < x ∧
         @_resolve_final_delegate example_external v example_delegated
           = Return bob.
Proof.
  apply (@power_map_keys example_external example_laws
           example_delegated {[bob := 150]} bob 150);
    [exact example_delegated_reachable | exact example_power_map
    | vm_compute; reflexivity].
Defined.

Lemma effective_power_of_final_delegate_witness :
  @get_effective_voting_power example_external alice example_delegated
    = Return (sum_values (delegators_of example_delegated bob)) ∧
  @get_effective_voting_power example_external bob example_delegated
    = Return (sum_values (delegators_of example_delegated bob)).
Proof.
  apply (@effective_power_of_final_delegate example_external example_laws);
    [exact example_delegated_reachable | vm_compute; reflexivity].
Defined.

(** A vote after the closing time of "P". *)
Lemma vote_rejections_witness :
  @vote example_external 31 "P" bob "yes" example_proposed
  = (Raise (ValueError "voting closed"), example_proposed).
Proof.
  destruct (@vote_rejections example_external example_laws
              31 "P" bob "yes" example_proposed) as (_ & _ & _ & Hopen).
  destruct (Hopen (new_proposal "title" "description" 30)) as [Hclosed _];
    [vm_compute; reflexivity | unfold choices; apply list_elem_of_here |].
  apply Hclosed. simpl. lia.
Defined.

Lemma vote_frame_witness :
  verifier example_voted = verifier example_proposed ∧
  voter_weight example_voted = voter_weight example_proposed ∧
  delegate_of example_voted = delegate_of example_proposed ∧
  nonce_of example_voted = nonce_of example_proposed ∧
  (∀ pid', pid' ≠ "P" →
     proposals example_voted !! pid' = proposals example_proposed !! pid') ∧
  (proposals example_proposed !! "P" = None →
     proposals example_voted !! "P" = None) ∧
  (∀ prop, proposals example_proposed !! "P" = Some prop →
     ∃ prop', proposals example_voted !! "P" = Some prop' ∧
              title prop' = title prop ∧
              description prop' = description prop ∧
              closes_at prop' = closes_at prop ∧
              (∀ c, c ≠ "yes" → tallies prop' !! c = tallies prop !! c) ∧
              voted prop ⊆ voted prop').
Proof.
  apply (@vote_frame example_external example_laws
           12 "P" bob "yes" example_proposed).
Defined.

Lemma example_vote :
  @vote example_external 12 "P" bob "yes" example_proposed
  = (Return (150, {["yes" := 150; "no" := 0; "abstain" := 0]}), example_voted).
Proof. vm_compute. reflexivity. Qed.

Lemma vote_then_results_witness :
  0 < 150 ∧
  @get_effective_voting_power example_external bob example_proposed
    = Return 150 ∧
  get_results "P" example_voted
    = Return {["yes" := 150; "no" := 0; "abstain" := 0]} ∧
  ∃ prop prop' vc tally,
    proposals example_proposed !! "P" = Some prop ∧
    proposals example_voted !! "P" = Some prop' ∧
    @to_checksum_address example_external bob = Some vc ∧ vc ∈ voted prop' ∧
    tallies prop !! "yes" = Some tally ∧
    ({["yes" := 150; "no" := 0; "abstain" := 0]} : gmap string Z)
      = <["yes" := tally + 150]> (tallies prop) ∧
    sum_values {["yes" := 150; "no" := 0; "abstain" := 0]}
      = sum_values (tallies prop) + 150.
Proof.
  apply (@vote_then_results example_external example_laws
           12 "P" bob "yes" example_proposed).
  exact example_vote.
Defined.

Lemma created_proposal_is_open_witness :
  11 < 30 ∧ is_open 11 "P" example_proposed = Return true ∧
  (∀ t', is_open t' "P" example_proposed = Return (bool_decide (t' ≤ 30))) ∧
  get_results "P" example_proposed
    = Return {["yes" := 0; "no" := 0; "abstain" := 0]}.
Proof.
  apply (created_proposal_is_open 11 "P" "title" "description" 30
           example_delegated).
  vm_compute. reflexivity.
Defined.

Lemma example_voted_reachable : @reachable example_external example_voted.
Proof.
  apply (@reachable_call example_external), example_proposed_reachable.
Qed.

Lemma reachable_proposals_witness :
  ∃ p, proposals example_voted !! "P" = Some p ∧
       get_results "P" example_voted = Return (tallies p) ∧
       dom (tallies p) = {["yes"; "no"; "abstain"]} ∧
       (∀ c t, tallies p !! c = Some t → 0 ≤ t) ∧
       (voted p = ∅ ↔ sum_values (tallies p) = 0) ∧
       (∀ v, v ∈ voted p → @to_checksum_address example_external v = Some v).
Proof.
  destruct (proposals example_voted !! "P") as [p|] eqn:Hp;
    [|vm_compute in Hp; discriminate Hp].
  exists p. split; [reflexivity|].
  apply (@reachable_proposals example_external example_laws example_voted "P" p);
    [exact example_voted_reachable | exact Hp].
Defined.

Lemma proposals_persist_witness :
  ∃ p', proposals
          (@after_all example_external [Vote 12 "P" bob "yes"] example_proposed)
          !! "P" = Some p' ∧
        title p' = "title" ∧ description p' = "description" ∧
        closes_at p' = 30 ∧ (∅ : gset string) ⊆ voted p' ∧
        ∀ c t, tallies (new_proposal "title" "description" 30) !! c = Some t →
               ∃ t', tallies p' !! c = Some t' ∧ t ≤ t'.
Proof.
  apply (@proposals_persist example_external example_laws
           [Vote 12 "P" bob "yes"] example_proposed "P"
           (new_proposal "title" "description" 30)).
  vm_compute. reflexivity.
Defined.

(** Bob, to whom Alice delegates, delegates to Carol. *)
Lemma delegation_joins_chains_witness :
  @_resolve_final_delegate example_external carol
    (@_set_delegate example_external bob carol example_delegated).2
    = @_resolve_final_delegate example_external carol example_delegated ∧
  @_resolve_final_delegate example_external bob
    (@_set_delegate example_external bob carol example_delegated).2
    = @_resolve_final_delegate example_external carol example_delegated.
Proof.
  apply (@delegation_joins_chains example_external example_laws
           bob carol bob carol example_delegated);
    [reflexivity | reflexivity | discriminate | vm_compute; reflexivity].
Defined.

Lemma self_delegation_undoes_witness :
  @_set_delegate example_external alice alice
    (@_set_delegate example_external alice bob example_registered).2
  = (Return (), example_registered).
Proof.
  apply (@self_delegation_undoes example_external example_laws
           alice bob alice bob example_registered);
    [reflexivity | reflexivity | vm_compute; reflexivity
    | vm_compute; reflexivity].
Defined.

Lemma reachable_keys_witness :
  (∀ a w, voter_weight example_delegated !! a = Some w →
     @to_checksum_address example_external a = Some a ∧ 0 ≤ w ∧
     is_Some (nonce_of example_delegated !! a)) ∧
  (∀ a n, nonce_of example_delegated !! a = Some n →
     @to_checksum_address example_external a = Some a ∧ 0 ≤ n) ∧
  (∀ a b, delegate_of example_delegated !! a = Some b →
     @to_checksum_address example_external a = Some a ∧
     @to_checksum_address example_external b = Some b ∧ a ≠ b).
Proof.
  apply (@reachable_keys example_external example_laws).
  exact example_delegated_reachable.
Defined.

Lemma cycle_rejection_exact_witness :
  ((∃ n, follow (delegate_of example_delegated) n alice = Some bob) →
     @_set_delegate example_external bob alice example_delegated =
       (Raise (ValueError "delegation would create a cycle"),
        example_delegated)) ∧
  ((∀ n, follow (delegate_of example_delegated) n alice ≠ Some bob) →
     @_set_delegate example_external bob alice example_delegated =
       (Return (),
        set_delegate_of (<[bob := alice]> (delegate_of example_delegated))
          example_delegated)).
Proof.
  apply (@cycle_rejection_exact example_external example_laws
           bob alice bob alice example_delegated);
    [exact example_delegated_reachable | reflexivity | reflexivity
    | discriminate].
Defined.

Lemma verifier_fixed_witness :
  ∃ s, @new_ledger example_external 1 "0xC0ffee" = Return s ∧
       ∀ cls : list call,
         verifier (@after_all example_external cls s) =
           {| chain_id := 1; verifying_contract := "0xC0ffee" |}.
Proof.
  destruct (@verifier_fixed example_external example_laws 1 "0xC0ffee")
    as [_ Hvalid].
  apply Hvalid. reflexivity.
Defined.
